(** * Fishing game server: throttle gate and catch engine

    A shallow embedding of [auth.py], [game_logic.py] and [models.py].

    Conventions of the embedding.
    - Python floats (timestamps, weights, probabilities) are exact
      rationals [Q], and float operations are the exact ones.  A float is
      a dyadic rational, but the product or sum of two floats is rounded
      to the nearest float where the model keeps the exact number; the
      two differ where a later truncation or rounding sits on the other
      side of that last bit (see [weighted_choices] and
      [generate_weight]).  Every concrete input used below is a dyadic
      rational on which each intermediate result is a float, so the float
      computation and the rational one agree on it.
    - [time.time()], [random.choice] and [random.gauss] are not state of
      the program: each call site receives the value read or drawn as an
      argument ([now], the index [k] drawn by [random.choice], the standard
      normal deviate [z] scaled by [random.gauss]).
    - Module-level dictionaries and object attributes are explicit state,
      threaded by a state-and-exception monad. *)

From Stdlib Require Import QArith Qround ZArith Ascii String List Lia Lqa.
From stdpp Require Import gmap strings.
Import ListNotations.

Local Open Scope string_scope.
Local Open Scope Z_scope.
Local Open Scope list_scope.

(** ** Exceptions and the state monad *)

Inductive Exn :=
| StoreError                 (* the database client raised *)
| ValueError                 (* tuple unpacking of the wrong arity *)
| HandlerError (msg : string).

Inductive Outcome (A : Type) :=
| Ret (a : A)
| Raise (e : Exn).
Arguments Ret {A} a.
Arguments Raise {A} e.

Definition M (S A : Type) : Type := S -> Outcome A * S.

Definition ret {S A} (a : A) : M S A := fun s => (Ret a, s).
Definition raise {S A} (e : Exn) : M S A := fun s => (Raise e, s).
Definition bind {S A B} (m : M S A) (k : A -> M S B) : M S B :=
  fun s => match m s with
           | (Ret a, s') => k a s'
           | (Raise e, s') => (Raise e, s')
           end.
Definition get {S} : M S S := fun s => (Ret s, s).
Definition put {S} (s : S) : M S unit := fun _ => (Ret tt, s).
Definition modify {S} (f : S -> S) : M S unit := fun s => (Ret tt, f s).

Notation "x <- m ;; k" := (bind m (fun x => k))
  (at level 100, m at next level, right associativity).
Notation "m ;;; k" := (bind m (fun _ => k))
  (at level 100, right associativity).

(** ** Rational helpers *)

Definition Qltb (x y : Q) : bool := negb (Qle_bool y x).

(** * auth.py *)

Module Auth.

(** [request.user_id] as read with [getattr(request, 'user_id', None)]. *)
Record Request := {
  user_id : option string;
  user_email : option string
}.

(** The JSON documents built by the decorators, and whatever the wrapped
    handler answers. *)
Inductive Body :=
| ErrUnauthorized
| ErrRateLimit (max_requests : Z) (window_seconds : Q)
| ErrCooldown (remaining_seconds : Q)
| HandlerBody (payload : string).

(** A [flask.Response]; it carries its own status code. *)
Record Response := {
  body : Body;
  status_code : Z
}.

Definition jsonify (b : Body) : Response := {| body := b; status_code := 200 |}.

(** What a view function may return: a pair [(response, status)] with an
    integer status, a triple [(response, status, headers)], or a value
    that is not a tuple. *)
Inductive ViewResult :=
| Pair (response : Response) (status : Z)
| Triple (response : Response) (status : Z) (headers : list (string * string))
| Plain (response : Response).

(** The status the client sees (Flask's [make_response]). *)
Definition http_status (r : ViewResult) : Z :=
  match r with
  | Pair _ s => s
  | Triple _ s _ => s
  | Plain resp => status_code resp
  end.

(** The two module-level dictionaries. *)
Record ThrottleState := {
  rate_limit_storage : gmap string (list Q);
  cooldown_storage : gmap string Q
}.

Definition set_rate (u : string) (l : list Q) (st : ThrottleState) : ThrottleState :=
  {| rate_limit_storage := <[u := l]> (rate_limit_storage st);
     cooldown_storage := cooldown_storage st |}.

(** [rate_limit_storage[user_id]] on a [defaultdict(list)]. *)
Definition history (u : string) (st : ThrottleState) : list Q :=
  default [] (rate_limit_storage st !! u).

(** [if not user_id]: [None] and the empty string are falsy. *)
Definition truthy (u : option string) : option string :=
  match u with
  | Some s => if String.eqb s "" then None else Some s
  | None => None
  end.

Definition Handler := Request -> M ThrottleState ViewResult.

Definition prune (now window_seconds : Q) (l : list Q) : list Q :=
  List.filter (fun req_time => Qltb (now - req_time) window_seconds) l.

Definition rate_limit (max_requests : Z) (window_seconds : Q) (f : Handler)
    (now : Q) : Handler :=
  fun request =>
    match truthy (user_id request) with
    | None => ret (Pair (jsonify ErrUnauthorized) 401)
    | Some u =>
        st <- get ;;
        let kept := prune now window_seconds (history u st) in
        put (set_rate u kept st) ;;;
        if Z.of_nat (length kept) >=? max_requests then
          ret (Pair (jsonify (ErrRateLimit max_requests window_seconds)) 429)
        else
          modify (set_rate u (kept ++ [now])) ;;;
          f request
    end.

Definition check_cooldown (u : string) (cooldown_seconds now : Q)
    (st : ThrottleState) : bool * Q :=
  match cooldown_storage st !! u with
  | Some last_cast =>
      let time_elapsed := (now - last_cast)%Q in
      if Qltb time_elapsed cooldown_seconds
      then (false, (cooldown_seconds - time_elapsed)%Q)
      else (true, 0%Q)
  | None => (true, 0%Q)
  end.

Definition set_cooldown (u : string) (now : Q) (st : ThrottleState) : ThrottleState :=
  {| rate_limit_storage := rate_limit_storage st;
     cooldown_storage := <[u := now]> (cooldown_storage st) |}.

(** The tail of [cooldown_required] after the handler returned [result]:
    [isinstance(result, tuple)], the two-name unpacking, the status test. *)
Definition arm_after (u : string) (t_set : Q) (result : ViewResult)
    : M ThrottleState ViewResult :=
  match result with
  | Pair _ status =>
      (if status =? 200 then modify (set_cooldown u t_set) else ret tt) ;;;
      ret result
  | Triple _ _ _ => raise ValueError
  | Plain _ =>
      modify (set_cooldown u t_set) ;;;
      ret result
  end.

(** [now] is the clock read by [check_cooldown], [t_set] the one read by
    [set_cooldown] once the handler has returned. *)
Definition cooldown_required (cooldown_seconds : Q) (f : Handler)
    (now t_set : Q) : Handler :=
  fun request =>
    match truthy (user_id request) with
    | None => ret (Pair (jsonify ErrUnauthorized) 401)
    | Some u =>
        st <- get ;;
        let '(can_cast, remaining) := check_cooldown u cooldown_seconds now st in
        if negb can_cast then
          ret (Pair (jsonify (ErrCooldown remaining)) 429)
        else
          result <- f request ;;
          arm_after u t_set result
    end.

(** ** Concrete handlers, requests and runs *)

Definition ok_handler : Handler :=
  fun _ => ret (Pair (jsonify (HandlerBody "caught")) 200).

(** A handler that reports an internal failure as a pair. *)
Definition failing_pair_handler : Handler :=
  fun _ => ret (Pair (jsonify (HandlerBody "save error")) 500).

(** A handler that reports the same failure with a response object built
    with its own status, [make_response(..., 500)], and no tuple. *)
Definition failing_plain_handler : Handler :=
  fun _ => ret (Plain {| body := HandlerBody "save error"; status_code := 500 |}).

(** A handler that reports success with headers, as a triple. *)
Definition ok_with_headers_handler : Handler :=
  fun _ => ret (Triple (jsonify (HandlerBody "caught")) 200
                  [("Cache-Control", "no-store")]).

Definition request_of (u : string) : Request :=
  {| user_id := Some u; user_email := None |}.

Definition empty_state : ThrottleState :=
  {| rate_limit_storage := ∅; cooldown_storage := ∅ |}.

(** Successive calls of one player through the rate limiter, at the given
    clock readings; the statuses seen by the client. *)
Fixpoint run_rate_limit (max_requests : Z) (window_seconds : Q) (u : string)
    (times : list Q) (st : ThrottleState) : list Z :=
  match times with
  | [] => []
  | now :: rest =>
      match rate_limit max_requests window_seconds ok_handler now (request_of u) st with
      | (Ret r, st') =>
          http_status r :: run_rate_limit max_requests window_seconds u rest st'
      | (Raise _, st') =>
          500 :: run_rate_limit max_requests window_seconds u rest st'
      end
  end.

(** The pruning rule in the words of the specification: drop recorded
    timestamps older than [now - W]. *)
Definition prune_as_specified (now window_seconds : Q) (l : list Q) : list Q :=
  List.filter (fun req_time => negb (Qltb req_time (now - window_seconds))) l.

(** One player with a single request recorded at time 0. *)
Definition one_request_at_zero : ThrottleState :=
  {| rate_limit_storage := {[ "p1" := [0%Q] ]}; cooldown_storage := ∅ |}.

(** ** The session verifier *)

(** [str.split(' ')]: every single occurrence of the separator cuts, so
    two separators in a row enclose an empty word. *)
Fixpoint split_on (sep : ascii) (s : string) : list string :=
  match s with
  | EmptyString => [EmptyString]
  | String c rest =>
      if Ascii.eqb c sep then EmptyString :: split_on sep rest
      else match split_on sep rest with
           | word :: words => String c word :: words
           | [] => [String c EmptyString]
           end
  end.

Fixpoint has_space (s : string) : bool :=
  match s with
  | EmptyString => false
  | String c rest => Ascii.eqb c " " || has_space rest
  end.

(** What [jwt.decode] does with a token: the payload, or one of the two
    exceptions [verify_token] catches. *)
Inductive JwtOutcome :=
| Decoded (payload : gmap string string)
| ExpiredSignatureError
| InvalidTokenError (reason : string).

(** The three answers of [require_auth] itself, each sent with status 401. *)
Inductive AuthError :=
| NoAuthorizationHeader
| InvalidAuthorizationHeaderFormat
| InvalidOrExpiredToken.

(** The result of a view behind [require_auth]: one of its own 401
    answers, or what the wrapped view returned. *)
Inductive Gated :=
| Rejected (error : AuthError)
| Served (result : ViewResult).

Section Session.

(** [jwt.decode(token, Config.SUPABASE_JWT_SECRET, algorithms=['HS256'],
    options={"verify_aud": False})]: the library and the secret are not
    part of the sources. *)
Variable jwt_decode : string -> JwtOutcome.

Definition verify_token (token : string) : option (gmap string string) :=
  match jwt_decode token with
  | Decoded payload => Some payload
  | ExpiredSignatureError => None
  | InvalidTokenError _ => None
  end.

(** [if not payload]: [None] and the empty dictionary are falsy. *)
Definition payload_truthy (payload : option (gmap string string))
    : option (gmap string string) :=
  match payload with
  | Some claims => if decide (claims = ∅) then None else Some claims
  | None => None
  end.

(** [auth_header] is [request.headers.get('Authorization')]; the request
    handed to the view carries the two attributes set from the payload. *)
Definition require_auth (f : Handler) (auth_header : option string)
    : M ThrottleState Gated :=
  match auth_header with
  | None => ret (Rejected NoAuthorizationHeader)
  | Some header =>
      if String.eqb header "" then ret (Rejected NoAuthorizationHeader)
      else
        match nth_error (split_on " " header) 1 with
        | None => ret (Rejected InvalidAuthorizationHeaderFormat)
        | Some token =>
            match payload_truthy (verify_token token) with
            | None => ret (Rejected InvalidOrExpiredToken)
            | Some payload =>
                result <- f {| user_id := payload !! "sub";
                               user_email := payload !! "email" |} ;;
                ret (Served result)
            end
        end
  end.

(** What [require_auth] does once it holds a token: the part of its body
    from [verify_token] on. *)
Definition serve_token (f : Handler) (token : string) : M ThrottleState Gated :=
  match payload_truthy (verify_token token) with
  | None => ret (Rejected InvalidOrExpiredToken)
  | Some payload =>
      result <- f {| user_id := payload !! "sub";
                     user_email := payload !! "email" |} ;;
      ret (Served result)
  end.

End Session.

(** A decoder that accepts the token ["good"] for player [p1], the token
    ["anonymous"] with a payload without subject, the token ["hollow"]
    with an empty payload, and reports ["old"] as expired. *)
Definition sample_decode (token : string) : JwtOutcome :=
  if String.eqb token "good"
  then Decoded {[ "sub" := "p1"; "email" := "p1@example.org" ]}
  else if String.eqb token "anonymous"
  then Decoded {[ "email" := "nobody@example.org" ]}
  else if String.eqb token "hollow" then Decoded ∅
  else if String.eqb token "old" then ExpiredSignatureError
  else InvalidTokenError "Not enough segments".

(** ** Runs of the rate limiter *)

(** The state after successive calls of one player, at the given clock
    readings, to a view that leaves the throttle state alone. *)
Definition after_calls (max_requests : Z) (window_seconds : Q) (u : string)
    (times : list Q) (st : ThrottleState) : ThrottleState :=
  fold_left
    (fun st now =>
       snd (rate_limit max_requests window_seconds ok_handler now (request_of u) st))
    times st.

End Auth.

(** * models.py and game_logic.py *)

Module Game.

Record FishSpecies := {
  id : string;
  name : string;
  rarity : string;
  min_weight : Q;
  max_weight : Q;
  base_probability : Q;
  image_url : option string;
  description : string;
  points : Z
}.

(** Row identifiers are opaque to the game logic; the model numbers the
    rows of [catches]. *)
Record Catch := {
  catch_id : nat;
  player_id : string;
  fish_species_id : string;
  weight : Q;
  caught_at : Q;
  is_personal_best : bool;
  points_earned : Z
}.

Record CastResult := {
  success : bool;
  fish : option FishSpecies;
  cast_weight : option Q;
  cast_points : option Z;
  cast_is_personal_best : bool;
  message : string
}.

(** ** The database behind the client

    The client library and the database are outside the repository.  The
    model keeps the two tables the game logic touches, counts the calls to
    [execute()], and consumes one entry of a fault schedule per call, so
    that every branch of the callers can be reached: the call answers
    normally, raises, or comes back without rows. *)

Inductive Fault := NoFault | FaultRaise | FaultEmpty.

Record Store := {
  fish_species_tbl : list FishSpecies;
  catches_tbl : list Catch;
  faults : list Fault;
  calls : nat
}.

Definition next_fault (s : Store) : Fault := hd NoFault (faults s).

Definition tick (s : Store) : Store :=
  {| fish_species_tbl := fish_species_tbl s;
     catches_tbl := catches_tbl s;
     faults := tl (faults s);
     calls := S (calls s) |}.

Definition with_catches (rows : list Catch) (s : Store) : Store :=
  {| fish_species_tbl := fish_species_tbl s;
     catches_tbl := rows;
     faults := faults s;
     calls := calls s |}.

Definition execute_read {A} (rows : Store -> list A) : M Store (list A) :=
  fun s =>
    match next_fault s with
    | NoFault => (Ret (rows s), tick s)
    | FaultEmpty => (Ret [], tick s)
    | FaultRaise => (Raise StoreError, tick s)
    end.

Definition execute_write {A} (w : Store -> list A * Store) : M Store (list A) :=
  fun s =>
    match next_fault s with
    | NoFault => let '(rows, s') := w s in (Ret rows, tick s')
    | FaultEmpty => (Ret [], tick s)
    | FaultRaise => (Raise StoreError, tick s)
    end.

(** [.eq('player_id', p).eq('fish_species_id', f)] *)
Definition matches (p f : string) (c : Catch) : bool :=
  String.eqb (player_id c) p && String.eqb (fish_species_id c) f.

(** [.order('weight', desc=True)] *)
Fixpoint insert_desc (c : Catch) (l : list Catch) : list Catch :=
  match l with
  | [] => [c]
  | h :: t => if Qltb (weight h) (weight c) then c :: h :: t
              else h :: insert_desc c t
  end.

Definition order_weight_desc (l : list Catch) : list Catch :=
  fold_right insert_desc [] l.

(** [table('fish_species').select('*')] *)
Definition select_fish_species : M Store (list FishSpecies) :=
  execute_read fish_species_tbl.

(** The heaviest catch of a player for a species, as the two queries of
    [check_personal_best] and [update_personal_best_flags] ask for it. *)
Definition heaviest (p f : string) (s : Store) : list Catch :=
  firstn 1 (order_weight_desc (List.filter (matches p f) (catches_tbl s))).

Definition select_best_weight (p f : string) : M Store (list Q) :=
  execute_read (fun s => map weight (heaviest p f s)).

Definition select_heaviest_id (p f : string) : M Store (list nat) :=
  execute_read (fun s => map catch_id (heaviest p f s)).

Definition set_flag (b : bool) (c : Catch) : Catch :=
  {| catch_id := catch_id c; player_id := player_id c;
     fish_species_id := fish_species_id c; weight := weight c;
     caught_at := caught_at c; is_personal_best := b;
     points_earned := points_earned c |}.

(** [.update({'is_personal_best': b})] on the rows selected by [sel] *)
Definition update_flag (b : bool) (sel : Catch -> bool) : M Store (list Catch) :=
  execute_write (fun s =>
    let rows := map (fun c => if sel c then set_flag b c else c) (catches_tbl s) in
    (List.filter sel rows, with_catches rows s)).

(** Modelled from the spec: the stored procedure [insert_catch], which is
    SQL and not part of the Python sources.  Following the store interface
    [insert_catch(player, species, weight, is_best, points) -> Catch], it
    inserts one row carrying its arguments and returns that row. *)
Definition rpc_insert_catch (p_player_id p_fish_species_id : string)
    (p_weight : Q) (p_is_personal_best : bool) (p_points_earned : Z)
    (now : Q) : M Store (list Catch) :=
  execute_write (fun s =>
    let row := {| catch_id := length (catches_tbl s);
                  player_id := p_player_id;
                  fish_species_id := p_fish_species_id;
                  weight := p_weight;
                  caught_at := now;
                  is_personal_best := p_is_personal_best;
                  points_earned := p_points_earned |} in
    ([row], with_catches (catches_tbl s ++ [row]) s)).

(** ** class FishingGame *)

Record FishingGame := {
  supabase : Store;
  fish_species_cache : option (list FishSpecies);
  last_cache_update : Q;
  cache_duration : Q
}.

(** [FishingGame(supabase_client)] *)
Definition init (supabase_client : Store) : FishingGame :=
  {| supabase := supabase_client;
     fish_species_cache := None;
     last_cache_update := 0%Q;
     cache_duration := 300%Q |}.

(** A call through [self.supabase]. *)
Definition on_store {A} (m : M Store A) : M FishingGame A :=
  fun self =>
    let '(r, s') := m (supabase self) in
    (r, {| supabase := s';
           fish_species_cache := fish_species_cache self;
           last_cache_update := last_cache_update self;
           cache_duration := cache_duration self |}).

Definition set_cache (data : list FishSpecies) (current_time : Q)
    (self : FishingGame) : FishingGame :=
  {| supabase := supabase self;
     fish_species_cache := Some data;
     last_cache_update := current_time;
     cache_duration := cache_duration self |}.

(** Truth value of [self.fish_species_cache]: [None] and [[]] are falsy. *)
Definition cache_truthy (self : FishingGame) : bool :=
  match fish_species_cache self with
  | Some (_ :: _) => true
  | _ => false
  end.

Definition get_all_fish_species (current_time : Q) : M FishingGame (list FishSpecies) :=
  self <- get ;;
  if cache_truthy self
     && Qltb (current_time - last_cache_update self) (cache_duration self)
  then ret (default [] (fish_species_cache self))
  else
    data <- on_store select_fish_species ;;
    match data with
    | _ :: _ =>
        modify (set_cache data current_time) ;;;
        ret data
    | [] => ret []
    end.

(** [int(x)] on a float truncates toward zero. *)
Definition py_int (x : Q) : Z := Z.quot (Qnum x) (Zpos (Qden x)).

(** [[fish] * weight]: a non-positive count gives the empty list. *)
Definition replicate (fish : FishSpecies) (weight : Z) : list FishSpecies :=
  repeat fish (Z.to_nat weight).

(** The [for] loop of [generate_random_fish].

    The product [probability * 1000] is the exact one.  In binary
    floating point it is rounded before [int] truncates it, which can move
    it onto the next whole number: the float written [0.009] is slightly
    below 9/1000, its float product with 1000 is [9.0] (9 copies) and its
    exact product is below 9 (8 copies here).  The two agree whenever the
    exact product is itself a float, as for probabilities that are whole
    numbers of eighths, and they agree on which probabilities get no copy
    at all: the float product is below 1 exactly for the floats below
    [0.001]. *)
Definition weighted_choices (fish_list : list FishSpecies) : list FishSpecies :=
  fold_left
    (fun acc fish =>
       let probability := base_probability fish in
       let weight := py_int (probability * 1000)%Q in
       acc ++ replicate fish weight)
    fish_list [].

(** [random.choice(seq)] is [seq[k]] for the index [k] drawn below
    [len(seq)]; any natural number stands for a draw, reduced modulo the
    length. *)
Definition choice {A} (seq : list A) (k : nat) : option A :=
  nth_error seq (k mod length seq).

Definition generate_random_fish (current_time : Q) (k : nat)
    : M FishingGame (option FishSpecies) :=
  fish_list <- get_all_fish_species current_time ;;
  match fish_list with
  | [] => ret None
  | _ :: _ =>
      match weighted_choices fish_list with
      | [] => ret None
      | (_ :: _) as choices => ret (choice choices k)
      end
  end.

(** [max(a, b)] and [min(a, b)] return their first argument on a tie. *)
Definition py_max (a b : Q) : Q := if Qltb a b then b else a.
Definition py_min (a b : Q) : Q := if Qltb b a then b else a.

(** [round(x)] to the nearest integer, ties to even. *)
Definition round_half_even (x : Q) : Z :=
  let f := Qfloor x in
  let r := (x - inject_Z f)%Q in
  if Qltb r (1 # 2) then f
  else if Qltb (1 # 2) r then f + 1
  else if Z.even f then f else f + 1.

(** [round(x, 2)] *)
Definition py_round2 (x : Q) : Q := Qmake (round_half_even (x * 100)%Q) 100.

(** [random.gauss(mu, sigma)] scales a standard normal deviate [z].  The
    sum and the product are the exact ones; in binary floating point
    [mu + z * sigma] is rounded to a float before [round(w, 2)] sees it,
    so a draw that lands within that last bit of a rounding tie (an odd
    number of half hundredths) can round to the other hundredth: with
    bounds 2 and 5 and [z] the float written [0.01], the float draw rounds
    to 3.50 and the exact one to 3.51.  The clamping, and with it every
    bound on the result, is not affected. *)
Definition gauss (mu sigma z : Q) : Q := (mu + z * sigma)%Q.

Definition generate_weight (fish : FishSpecies) (z : Q) : Q :=
  let min_weight := min_weight fish in
  let max_weight := max_weight fish in
  let mean := ((min_weight + max_weight) / 2)%Q in
  let std_dev := ((max_weight - min_weight) / 6)%Q in
  let weight := gauss mean std_dev z in
  let weight := py_max min_weight (py_min max_weight weight) in
  py_round2 weight.

Definition check_personal_best (player_id fish_species_id : string) (weight : Q)
    : M FishingGame bool :=
  data <- on_store (select_best_weight player_id fish_species_id) ;;
  match data with
  | [] => ret true
  | best_weight :: _ => ret (Qltb best_weight weight)
  end.

Definition update_personal_best_flags (player_id fish_species_id : string)
    : M FishingGame unit :=
  on_store (update_flag false (matches player_id fish_species_id)) ;;;
  data <- on_store (select_heaviest_id player_id fish_species_id) ;;
  match data with
  | catch_id' :: _ =>
      on_store (update_flag true (fun c => Nat.eqb (catch_id c) catch_id')) ;;;
      ret tt
  | [] => ret tt
  end.

(** The [except] clause prints and re-raises, so exceptions pass through. *)
Definition save_catch (player_id : string) (fish : FishSpecies) (weight : Q)
    (is_personal_best : bool) (now : Q) : M FishingGame (option Catch) :=
  data <- on_store (rpc_insert_catch player_id (id fish) weight
                      is_personal_best (points fish) now) ;;
  match data with
  | row :: _ =>
      (if is_personal_best
       then update_personal_best_flags player_id (id fish)
       else ret tt) ;;;
      ret (Some row)
  | [] => ret None
  end.

Definition failed_cast (msg : string) : CastResult :=
  {| success := false; fish := None; cast_weight := None; cast_points := None;
     cast_is_personal_best := false; message := msg |}.

Definition cast_line (player_id : string) (now : Q) (k : nat) (z : Q)
    : M FishingGame CastResult :=
  fish <- generate_random_fish now k ;;
  match fish with
  | None => ret (failed_cast "Failed to generate fish")
  | Some fish =>
      let weight := generate_weight fish z in
      is_personal_best <- check_personal_best player_id (id fish) weight ;;
      catch <- save_catch player_id fish weight is_personal_best now ;;
      match catch with
      | None => ret (failed_cast "Failed to save catch")
      | Some _ =>
          ret {| success := true;
                 fish := Some fish;
                 cast_weight := Some weight;
                 cast_points := Some (points fish);
                 cast_is_personal_best := is_personal_best;
                 message := ("Caught a " ++ name fish ++ "!")%string |}
      end
  end.

(** ** Concrete species, stores and games *)

Definition species (i : string) (probability lo hi : Q) (pts : Z) : FishSpecies :=
  {| id := i; name := i; rarity := "common";
     min_weight := lo; max_weight := hi; base_probability := probability;
     image_url := None; description := ""; points := pts |}.

(** [base_probability = 0.5], weights between 1 and 2. *)
Definition carp : FishSpecies := species "carp" (1 # 2) 1 2 10.

(** [base_probability = 0.00048828125], a single weight [0.1875]; both
    are dyadic, hence floats without rounding error. *)
Definition koi : FishSpecies := species "koi" (1 # 2048) (3 # 16) (3 # 16) 1000.

Definition store_of (rows : list FishSpecies) (caught : list Catch) : Store :=
  {| fish_species_tbl := rows; catches_tbl := caught; faults := []; calls := 0 |}.

Definition pond : Store := store_of [carp; koi] [].

(** A game whose snapshot [[carp]] was loaded at time 0 and whose store
    has since lost every species row. *)
Definition stale_game : FishingGame :=
  {| supabase := store_of [] [];
     fish_species_cache := Some [carp];
     last_cache_update := 0%Q;
     cache_duration := 300%Q |}.

Definition caught (n : nat) (p f : string) (w : Q) (best : bool) : Catch :=
  {| catch_id := n; player_id := p; fish_species_id := f; weight := w;
     caught_at := 0%Q; is_personal_best := best; points_earned := 10 |}.

(** Player [p1] has caught two carps, of 1.25 and 1.5. *)
Definition pond_with_history : Store :=
  store_of [carp; koi]
    [caught 0 "p1" "carp" (5 # 4) false; caught 1 "p1" "carp" (3 # 2) true].

(** ** Notions of the specification *)

(** The earlier catches of a player for a species. *)
Definition prior_catches (p f : string) (s : Store) : list Catch :=
  List.filter (matches p f) (catches_tbl s).

(** [best] is the player's prior best weight for the species: the weight
    of one earlier catch, and no earlier catch is heavier. *)
Definition prior_best (p f : string) (s : Store) (best : Q) : Prop :=
  (exists c, In c (prior_catches p f s) /\ (weight c == best)%Q)
  /\ forall c, In c (prior_catches p f s) -> (weight c <= best)%Q.

(** The test of the [if] in [get_all_fish_species]. *)
Definition cache_fresh (current_time : Q) (self : FishingGame) : bool :=
  cache_truthy self
  && Qltb (current_time - last_cache_update self) (cache_duration self).

(** The game after a call that left the store in state [s]. *)
Definition with_store (s : Store) (self : FishingGame) : FishingGame :=
  {| supabase := s;
     fish_species_cache := fish_species_cache self;
     last_cache_update := last_cache_update self;
     cache_duration := cache_duration self |}.

(** Row identifiers are the positions of the rows, as the modelled
    stored procedure hands them out. *)
Definition ids_are_positions (rows : list Catch) : Prop :=
  map catch_id rows = seq 0 (length rows).

(** Every flagged catch is a heaviest catch of its player for its
    species. *)
Definition flagged_are_heaviest (rows : list Catch) : Prop :=
  forall c c',
    In c rows -> In c' rows ->
    is_personal_best c = true ->
    matches (player_id c) (fish_species_id c) c' = true ->
    (weight c' <= weight c)%Q.

(** One row after the first update of [update_personal_best_flags] for
    player [p] and species [f]. *)
Definition unflag (p f : string) (c : Catch) : Catch :=
  if matches p f c then set_flag false c else c.

End Game.

(** * Properties *)

Import Auth Game.

Lemma Qltb_lt x y : Qltb x y = true <-> (x < y)%Q.
Proof.
  unfold Qltb. rewrite negb_true_iff, <- not_true_iff_false, Qle_bool_iff.
  split; [apply Qnot_le_lt | apply Qlt_not_le].
Qed.

Lemma Qltb_ge x y : Qltb x y = false <-> (y <= x)%Q.
Proof.
  unfold Qltb. rewrite negb_false_iff. apply Qle_bool_iff.
Qed.

(** ** The sliding-window rate limiter *)

Section RateLimit.

Variables (max_requests : Z) (window_seconds : Q) (f : Handler).

Lemma prune_In now l t :
  In t (prune now window_seconds l) <-> In t l /\ (now - t < window_seconds)%Q.
Proof.
  unfold prune. rewrite filter_In, Qltb_lt. reflexivity.
Qed.

Lemma set_rate_twice u l1 l2 st :
  set_rate u l2 (set_rate u l1 st) = set_rate u l2 st.
Proof.
  unfold set_rate; simpl. f_equal. apply insert_insert_eq.
Qed.

Lemma rate_limit_unauthorized now request st :
  truthy (user_id request) = None ->
  rate_limit max_requests window_seconds f now request st
  = (Ret (Pair (jsonify ErrUnauthorized) 401), st).
Proof.
  intros H. unfold rate_limit. rewrite H. reflexivity.
Qed.

Lemma rate_limit_rejects now request u st :
  truthy (user_id request) = Some u ->
  max_requests <= Z.of_nat (length (prune now window_seconds (history u st))) ->
  rate_limit max_requests window_seconds f now request st
  = (Ret (Pair (jsonify (ErrRateLimit max_requests window_seconds)) 429),
     set_rate u (prune now window_seconds (history u st)) st).
Proof.
  intros Hu Hfull. unfold rate_limit. rewrite Hu.
  unfold bind, get, put, ret; simpl.
  destruct (Z.geb_spec (Z.of_nat (length (prune now window_seconds (history u st))))
              max_requests) as [_ | Hlt]; [reflexivity | lia].
Qed.

Lemma rate_limit_admits now request u st :
  truthy (user_id request) = Some u ->
  Z.of_nat (length (prune now window_seconds (history u st))) < max_requests ->
  rate_limit max_requests window_seconds f now request st
  = f request (set_rate u (prune now window_seconds (history u st) ++ [now]) st).
Proof.
  intros Hu Hroom. unfold rate_limit. rewrite Hu.
  unfold bind, get, put, modify, ret; simpl.
  destruct (Z.geb_spec (Z.of_nat (length (prune now window_seconds (history u st))))
              max_requests) as [Hge | _]; [lia |].
  now rewrite set_rate_twice.
Qed.

End RateLimit.

Lemma truthy_Some u v : truthy u = Some v -> truthy (Some v) = Some v.
Proof.
  destruct u as [s |]; simpl; [| discriminate].
  destruct (String.eqb s "") eqn:E; [discriminate |].
  intros [= <-]. simpl. now rewrite E.
Qed.

Lemma history_set_rate u l st : history u (set_rate u l st) = l.
Proof.
  unfold history, set_rate; simpl. now rewrite lookup_insert_eq.
Qed.

Lemma run_rate_limit_step max_requests window_seconds u now rest st :
  truthy (Some u) = Some u ->
  run_rate_limit max_requests window_seconds u (now :: rest) st
  = let kept := prune now window_seconds (history u st) in
    if Z.of_nat (length kept) >=? max_requests
    then 429 :: run_rate_limit max_requests window_seconds u rest (set_rate u kept st)
    else 200 :: run_rate_limit max_requests window_seconds u rest
                  (set_rate u (kept ++ [now]) st).
Proof.
  intros Hu. cbn [run_rate_limit]. cbv zeta.
  destruct (Z.geb_spec (Z.of_nat (length (prune now window_seconds (history u st))))
              max_requests) as [Hge | Hlt].
  - rewrite (rate_limit_rejects _ _ _ _ _ u) by (try exact Hu; lia). reflexivity.
  - rewrite (rate_limit_admits _ _ _ _ _ u) by (try exact Hu; lia). reflexivity.
Qed.

(** C6, as amended: for a player with a usable identity the limiter keeps
    exactly the recorded timestamps [t] with [now - t < W] (a timestamp
    that is exactly [W] old is dropped as well); if at least [N] remain it
    answers 429 with the limit and the window and stores the pruned
    history without extending it; otherwise it appends [now] and runs the
    wrapped handler.  With [N = 3], [W = 60]: calls at 0, 1 and 2 are
    admitted, the call at 3 is rejected, the call at 60.5 is admitted. *)
Theorem rate_limit_admission (max_requests : Z) (window_seconds : Q)
    (f : Handler) (now : Q) (request : Request) (u : string) (st : ThrottleState) :
  truthy (user_id request) = Some u ->
  let kept := prune now window_seconds (history u st) in
  (forall t, In t kept <-> In t (history u st) /\ (now - t < window_seconds)%Q)
  /\ (max_requests <= Z.of_nat (length kept) ->
      rate_limit max_requests window_seconds f now request st
      = (Ret (Pair (jsonify (ErrRateLimit max_requests window_seconds)) 429),
         set_rate u kept st))
  /\ (Z.of_nat (length kept) < max_requests ->
      rate_limit max_requests window_seconds f now request st
      = f request (set_rate u (kept ++ [now]) st))
  /\ run_rate_limit 3 60 u [0; 1; 2; 3; 121 # 2]%Q empty_state
     = [200; 200; 200; 429; 200].
Proof.
  intros Hu kept. split; [| split; [| split]].
  - intros t. apply prune_In.
  - intros Hfull. now apply rate_limit_rejects.
  - intros Hroom. now apply rate_limit_admits.
  - pose proof (truthy_Some _ _ Hu) as Hu'.
    rewrite run_rate_limit_step by exact Hu'.
    unfold history at 1. simpl rate_limit_storage. rewrite lookup_empty.
    cbn -[run_rate_limit set_rate].
    repeat (rewrite run_rate_limit_step by exact Hu';
            rewrite history_set_rate; cbn -[run_rate_limit set_rate]).
    reflexivity.
Qed.

Lemma rate_limit_admission_witness :
  rate_limit 3 60 ok_handler 3 (request_of "p1")
    (set_rate "p1" [0; 1; 2]%Q empty_state)
  = (Ret (Pair (jsonify (ErrRateLimit 3 60)) 429),
     set_rate "p1" [0; 1; 2]%Q (set_rate "p1" [0; 1; 2]%Q empty_state)).
Proof.
  pose proof (rate_limit_admission 3 60 ok_handler 3 (request_of "p1") "p1"
                (set_rate "p1" [0; 1; 2]%Q empty_state) eq_refl) as H.
  cbv zeta in H. destruct H as (_ & Hrej & _).
  apply Hrej. vm_compute. discriminate.
Defined.

(** C6, as stated, at the boundary: with [N = 1], [W = 60] and one request
    recorded at time 0, a check at time 60 finds that timestamp not older
    than [now - W = 0], so one request remains and the stated rule
    rejects; the code has dropped it and runs the handler. *)
Lemma rate_limit_boundary_counterexample :
  prune_as_specified 60 60 (history "p1" one_request_at_zero) = [0%Q]
  /\ 1 <= Z.of_nat (length (prune_as_specified 60 60 (history "p1" one_request_at_zero)))
  /\ fst (rate_limit 1 60 ok_handler 60 (request_of "p1") one_request_at_zero)
     = Ret (Pair (jsonify (HandlerBody "caught")) 200)
  /\ history "p1" (snd (rate_limit 1 60 ok_handler 60 (request_of "p1")
                          one_request_at_zero)) = [60%Q].
Proof.
  repeat split; vm_compute; congruence.
Qed.

(** ** The cooldown gate *)

Section Cooldown.

Variables (cooldown_seconds : Q) (f : Handler) (now t_set : Q).

Lemma check_cooldown_active u st last_cast :
  cooldown_storage st !! u = Some last_cast ->
  (now - last_cast < cooldown_seconds)%Q ->
  check_cooldown u cooldown_seconds now st
  = (false, (cooldown_seconds - (now - last_cast))%Q).
Proof.
  intros Hlast Hlt. unfold check_cooldown. rewrite Hlast.
  apply Qltb_lt in Hlt. now rewrite Hlt.
Qed.

Lemma check_cooldown_elapsed u st last_cast :
  cooldown_storage st !! u = Some last_cast ->
  (cooldown_seconds <= now - last_cast)%Q ->
  check_cooldown u cooldown_seconds now st = (true, 0%Q).
Proof.
  intros Hlast Hge. unfold check_cooldown. rewrite Hlast.
  apply Qltb_ge in Hge. now rewrite Hge.
Qed.

Lemma check_cooldown_fresh u st :
  cooldown_storage st !! u = None ->
  check_cooldown u cooldown_seconds now st = (true, 0%Q).
Proof.
  intros Hnone. unfold check_cooldown. now rewrite Hnone.
Qed.

Lemma check_cooldown_fails_iff u st :
  fst (check_cooldown u cooldown_seconds now st) = false
  <-> exists last_cast,
        cooldown_storage st !! u = Some last_cast
        /\ (now - last_cast < cooldown_seconds)%Q.
Proof.
  split.
  - unfold check_cooldown.
    destruct (cooldown_storage st !! u) as [last_cast |]; [| discriminate].
    destruct (Qltb (now - last_cast) cooldown_seconds) eqn:E; [| discriminate].
    intros _. exists last_cast. split; [reflexivity | now apply Qltb_lt].
  - intros (last_cast & Hlast & Hlt).
    now rewrite (check_cooldown_active _ _ _ Hlast Hlt).
Qed.

Lemma cooldown_required_unauthorized request st :
  truthy (user_id request) = None ->
  cooldown_required cooldown_seconds f now t_set request st
  = (Ret (Pair (jsonify ErrUnauthorized) 401), st).
Proof.
  intros H. unfold cooldown_required. rewrite H. reflexivity.
Qed.

Lemma cooldown_required_denied request u st remaining :
  truthy (user_id request) = Some u ->
  check_cooldown u cooldown_seconds now st = (false, remaining) ->
  cooldown_required cooldown_seconds f now t_set request st
  = (Ret (Pair (jsonify (ErrCooldown remaining)) 429), st).
Proof.
  intros Hu Hc. unfold cooldown_required. rewrite Hu.
  unfold bind, get. now rewrite Hc.
Qed.

Lemma cooldown_required_admitted request u st :
  truthy (user_id request) = Some u ->
  fst (check_cooldown u cooldown_seconds now st) = true ->
  cooldown_required cooldown_seconds f now t_set request st
  = (result <- f request ;; arm_after u t_set result) st.
Proof.
  intros Hu Hc. unfold cooldown_required. rewrite Hu.
  unfold bind at 1. unfold get.
  destruct (check_cooldown u cooldown_seconds now st) as [can_cast remaining].
  simpl in Hc. subst can_cast. reflexivity.
Qed.

End Cooldown.

(** C7: the cooldown check fails exactly when a last-cast timestamp is
    recorded for the player and [now - last_cast < C]; the remaining time
    it reports is [C - (now - last_cast)], a rational, not a rounded
    number of seconds; a player without a recorded timestamp passes.  The
    wrapper answers 429 with that remaining time, without running the
    handler or touching the state, in the first case, and runs the handler
    whenever the check passes. *)
Theorem cooldown_gate_admission (cooldown_seconds now : Q) (u : string)
    (st : ThrottleState) :
  (fst (check_cooldown u cooldown_seconds now st) = false
   <-> exists last_cast,
         cooldown_storage st !! u = Some last_cast
         /\ (now - last_cast < cooldown_seconds)%Q)
  /\ (forall last_cast,
        cooldown_storage st !! u = Some last_cast ->
        (now - last_cast < cooldown_seconds)%Q ->
        check_cooldown u cooldown_seconds now st
        = (false, (cooldown_seconds - (now - last_cast))%Q))
  /\ (cooldown_storage st !! u = None ->
      check_cooldown u cooldown_seconds now st = (true, 0%Q))
  /\ (forall (f : Handler) (t_set : Q) (request : Request),
        truthy (user_id request) = Some u ->
        (forall last_cast,
           cooldown_storage st !! u = Some last_cast ->
           (now - last_cast < cooldown_seconds)%Q ->
           cooldown_required cooldown_seconds f now t_set request st
           = (Ret (Pair (jsonify (ErrCooldown
                                    (cooldown_seconds - (now - last_cast))%Q)) 429),
              st))
        /\ (fst (check_cooldown u cooldown_seconds now st) = true ->
            cooldown_required cooldown_seconds f now t_set request st
            = (result <- f request ;; arm_after u t_set result) st)).
Proof.
  split; [apply check_cooldown_fails_iff |].
  split; [intros last_cast; apply check_cooldown_active |].
  split; [apply check_cooldown_fresh |].
  intros f t_set request Hu. split.
  - intros last_cast Hlast Hlt.
    eapply cooldown_required_denied; [exact Hu |].
    now apply check_cooldown_active.
  - intros Hc. now apply cooldown_required_admitted.
Qed.

(** With [C = 5], a cast armed at time 11 and a second cast at the same
    instant: rejected with the whole 5 seconds remaining. *)
Lemma cooldown_gate_admission_witness :
  cooldown_required 5 ok_handler 11 12 (request_of "p1")
    (set_cooldown "p1" 11 empty_state)
  = (Ret (Pair (jsonify (ErrCooldown (5 - (11 - 11))%Q)) 429),
     set_cooldown "p1" 11 empty_state).
Proof.
  destruct (cooldown_gate_admission 5 11 "p1" (set_cooldown "p1" 11 empty_state))
    as (_ & _ & _ & H).
  destruct (H ok_handler 12%Q (request_of "p1") eq_refl) as [Hdenied _].
  apply (Hdenied 11%Q); [reflexivity | reflexivity].
Defined.

(** What [cooldown_required] does with each shape of result, once the
    check has passed: a pair [(response, 200)] and any value that is not a
    tuple arm the cooldown; a pair with another status and an exception of
    the handler leave the state as the handler left it; a triple makes the
    unpacking raise. *)
Theorem cooldown_armed_by_result_shape (cooldown_seconds : Q) (f : Handler)
    (now t_set : Q) (request : Request) (u : string) (st : ThrottleState) :
  truthy (user_id request) = Some u ->
  let wrapped := cooldown_required cooldown_seconds f now t_set request st in
  (fst (check_cooldown u cooldown_seconds now st) = false -> snd wrapped = st)
  /\ (fst (check_cooldown u cooldown_seconds now st) = true ->
      forall st',
        (forall e, f request st = (Raise e, st') -> wrapped = (Raise e, st'))
        /\ (forall response status,
              f request st = (Ret (Pair response status), st') ->
              status <> 200 ->
              wrapped = (Ret (Pair response status), st'))
        /\ (forall response,
              f request st = (Ret (Pair response 200), st') ->
              wrapped = (Ret (Pair response 200), set_cooldown u t_set st'))
        /\ (forall response,
              f request st = (Ret (Plain response), st') ->
              wrapped = (Ret (Plain response), set_cooldown u t_set st'))
        /\ (forall response status headers,
              f request st = (Ret (Triple response status headers), st') ->
              wrapped = (Raise ValueError, st'))).
Proof.
  intros Hu wrapped. split.
  - intros Hc. subst wrapped.
    destruct (check_cooldown u cooldown_seconds now st) as [can_cast remaining] eqn:E.
    simpl in Hc. subst can_cast.
    now rewrite (cooldown_required_denied _ _ _ _ _ _ _ _ Hu E).
  - intros Hc st'. subst wrapped.
    rewrite (cooldown_required_admitted _ _ _ _ _ _ _ Hu Hc).
    split; [| split; [| split; [| split]]].
    + intros e Hf. unfold bind at 1. now rewrite Hf.
    + intros response status Hf Hne. unfold bind at 1. rewrite Hf.
      unfold arm_after, bind.
      destruct (Z.eqb_spec status 200) as [-> | _]; [contradiction | reflexivity].
    + intros response Hf. unfold bind at 1. now rewrite Hf.
    + intros response Hf. unfold bind at 1. now rewrite Hf.
    + intros response status headers Hf. unfold bind at 1. now rewrite Hf.
Qed.

(** A cast that fails with status 500, reported as a pair, right after the
    state was empty: the player is not put on cooldown. *)
Lemma cooldown_armed_by_result_shape_witness :
  cooldown_required 5 failing_pair_handler 10 11 (request_of "p1") empty_state
  = (Ret (Pair (jsonify (HandlerBody "save error")) 500), empty_state).
Proof.
  destruct (cooldown_armed_by_result_shape 5 failing_pair_handler 10 11
              (request_of "p1") "p1" empty_state eq_refl) as [_ H].
  destruct (H eq_refl empty_state) as (_ & Hpair & _).
  apply Hpair; [reflexivity | discriminate].
Defined.

(** C2 at two handlers.  A cast that fails and reports it with a bare
    response of status 500: the client sees the failure, the player had no
    cooldown, and the wrapper has armed one.  A cast that succeeds and
    reports it as [(response, 200, headers)]: the unpacking of the result
    raises, the client gets an error for a cast that succeeded, and no
    cooldown is armed. *)
Theorem cooldown_ignores_outcome_of_cast :
  let failed :=
    cooldown_required 5 failing_plain_handler 10 11 (request_of "p1") empty_state in
  let succeeded :=
    cooldown_required 5 ok_with_headers_handler 10 11 (request_of "p1")
      empty_state in
  cooldown_storage empty_state !! "p1" = None
  /\ (exists r, failing_plain_handler (request_of "p1") empty_state
                = (Ret r, empty_state)
                /\ http_status r = 500
                /\ fst failed = Ret r)
  /\ cooldown_storage (snd failed) !! "p1" = Some 11%Q
  /\ (exists r, ok_with_headers_handler (request_of "p1") empty_state
                = (Ret r, empty_state)
                /\ http_status r = 200)
  /\ fst succeeded = Raise ValueError
  /\ cooldown_storage (snd succeeded) !! "p1" = None.
Proof.
  cbv zeta. split; [reflexivity |]. split.
  - eexists. split; [reflexivity |]. split; reflexivity.
  - split; [reflexivity |]. split.
    + eexists. split; reflexivity.
    + split; reflexivity.
Qed.

(** ** The species catalog cache *)

Section CatalogCache.

Variable current_time : Q.

Lemma cache_fresh_iff self :
  cache_fresh current_time self = true
  <-> (exists snapshot, fish_species_cache self = Some snapshot /\ snapshot <> [])
      /\ (current_time - last_cache_update self < cache_duration self)%Q.
Proof.
  unfold cache_fresh, cache_truthy. rewrite andb_true_iff, Qltb_lt.
  split; intros [Hc Ht]; (split; [| exact Ht]).
  - destruct (fish_species_cache self) as [[| x l] |]; try discriminate.
    eexists; split; [reflexivity | discriminate].
  - destruct Hc as (snapshot & -> & Hne).
    destruct snapshot; [contradiction | reflexivity].
Qed.

Lemma get_all_fish_species_hit self :
  cache_fresh current_time self = true ->
  get_all_fish_species current_time self
  = (Ret (default [] (fish_species_cache self)), self).
Proof.
  intros H. unfold cache_fresh in H.
  unfold get_all_fish_species, bind, get. now rewrite H.
Qed.

Lemma get_all_fish_species_miss self :
  cache_fresh current_time self = false ->
  get_all_fish_species current_time self
  = match select_fish_species (supabase self) with
    | (Ret (x :: l), s') =>
        (Ret (x :: l), set_cache (x :: l) current_time (with_store s' self))
    | (Ret [], s') => (Ret [], with_store s' self)
    | (Raise e, s') => (Raise e, with_store s' self)
    end.
Proof.
  intros H. unfold cache_fresh in H.
  unfold get_all_fish_species, bind, get. rewrite H.
  unfold on_store.
  destruct (select_fish_species (supabase self)) as [[[| x l] | e] s']; reflexivity.
Qed.

Lemma select_fish_species_calls s :
  calls (snd (select_fish_species s)) = S (calls s)
  /\ catches_tbl (snd (select_fish_species s)) = catches_tbl s.
Proof.
  unfold select_fish_species, execute_read.
  destruct (next_fault s); split; reflexivity.
Qed.

Lemma get_all_fish_species_catches self :
  catches_tbl (supabase (snd (get_all_fish_species current_time self)))
  = catches_tbl (supabase self).
Proof.
  destruct (cache_fresh current_time self) eqn:E.
  - now rewrite get_all_fish_species_hit.
  - rewrite get_all_fish_species_miss by exact E.
    pose proof (select_fish_species_calls (supabase self)) as [_ Hc].
    destruct (select_fish_species (supabase self)) as [[[| x l] | e] s'];
      exact Hc.
Qed.

End CatalogCache.

(** C3, as amended: a non-empty snapshot younger than the time-to-live is
    returned without a call to the store.  Otherwise one call is made: a
    non-empty answer replaces the snapshot, resets the refresh time and is
    returned; an empty answer makes the getter return the empty list,
    whatever snapshot is stored (the snapshot stays in place); a failing
    call raises to the caller. *)
Theorem catalog_getter_cases (current_time : Q) (self : FishingGame) :
  (forall snapshot,
     fish_species_cache self = Some snapshot -> snapshot <> [] ->
     (current_time - last_cache_update self < cache_duration self)%Q ->
     get_all_fish_species current_time self = (Ret snapshot, self))
  /\ (cache_fresh current_time self = false ->
      calls (supabase (snd (get_all_fish_species current_time self)))
      = S (calls (supabase self))
      /\ forall s',
           (forall x l,
              select_fish_species (supabase self) = (Ret (x :: l), s') ->
              get_all_fish_species current_time self
              = (Ret (x :: l),
                 {| supabase := s';
                    fish_species_cache := Some (x :: l);
                    last_cache_update := current_time;
                    cache_duration := cache_duration self |}))
           /\ (select_fish_species (supabase self) = (Ret [], s') ->
               get_all_fish_species current_time self
               = (Ret [], with_store s' self))
           /\ (forall e,
                 select_fish_species (supabase self) = (Raise e, s') ->
                 get_all_fish_species current_time self
                 = (Raise e, with_store s' self))).
Proof.
  split.
  - intros snapshot Hsnap Hne Hlt.
    rewrite get_all_fish_species_hit.
    + now rewrite Hsnap.
    + apply cache_fresh_iff. split; [eauto | exact Hlt].
  - intros Hmiss. rewrite get_all_fish_species_miss by exact Hmiss.
    pose proof (select_fish_species_calls (supabase self)) as [Hcalls _].
    split.
    + destruct (select_fish_species (supabase self)) as [[[| x l] | e] s'];
        exact Hcalls.
    + intros s'. split; [| split].
      * intros x l ->. reflexivity.
      * intros ->. reflexivity.
      * intros e ->. reflexivity.
Qed.

(** The stale game at time 400: the store answers with no rows and the
    getter returns the empty list. *)
Lemma catalog_getter_cases_witness :
  get_all_fish_species 400 stale_game
  = (Ret [], with_store (tick (store_of [] [])) stale_game).
Proof.
  destruct (catalog_getter_cases 400 stale_game) as [_ H].
  destruct (H eq_refl) as [_ H'].
  destruct (H' (tick (store_of [] []))) as (_ & Hempty & _).
  apply Hempty. reflexivity.
Defined.

(** C3, as stated, fails on the stale game: a snapshot [[carp]] has been
    loaded, it is older than the time-to-live, the fetch comes back empty,
    and the getter returns the empty list instead of the snapshot. *)
Lemma stale_snapshot_counterexample :
  fish_species_cache stale_game = Some [carp]
  /\ select_fish_species (supabase stale_game)
     = (Ret [], tick (supabase stale_game))
  /\ fst (get_all_fish_species 400 stale_game) = Ret []
  /\ fst (get_all_fish_species 400 stale_game) <> Ret [carp].
Proof.
  repeat split. vm_compute. discriminate.
Qed.

(** ** The weighted random selector *)

Section Selector.

Lemma weighted_choices_flat_map fish_list :
  weighted_choices fish_list
  = flat_map (fun fish => replicate fish (py_int (base_probability fish * 1000)%Q))
      fish_list.
Proof.
  unfold weighted_choices.
  set (g := fun fish => replicate fish (py_int (base_probability fish * 1000)%Q)).
  assert (H : forall l acc,
             fold_left (fun acc fish => acc ++ g fish) l acc = acc ++ flat_map g l).
  { induction l as [| x l IH]; intros acc; simpl.
    - now rewrite app_nil_r.
    - now rewrite IH, app_assoc. }
  apply (H fish_list []).
Qed.

(** Below one thousandth the scaled probability truncates to an integer
    that is not positive. *)
Lemma py_int_small (p : Q) : (p < 1 # 1000)%Q -> py_int (p * 1000)%Q <= 0.
Proof.
  destruct p as [n d]. unfold Qlt, py_int; simpl. intros H.
  rewrite Pos.mul_1_r.
  destruct (Z.le_gt_cases 0 n) as [Hn | Hn].
  - rewrite Z.quot_small; lia.
  - apply Z.quot_le_upper_bound; lia.
Qed.

Lemma py_int_small_nonneg (p : Q) :
  (0 <= p)%Q -> (p < 1 # 1000)%Q -> py_int (p * 1000)%Q = 0.
Proof.
  destruct p as [n d]. unfold Qle, Qlt, py_int; simpl. intros H0 H.
  rewrite Pos.mul_1_r. apply Z.quot_small. lia.
Qed.

(** A probability that is a whole number of thousandths is scaled
    without loss. *)
Lemma py_int_thousandths (n : Z) : py_int ((n # 1000) * 1000)%Q = n.
Proof.
  unfold py_int; simpl. now rewrite Z.quot_mul.
Qed.

Lemma replicate_small fish :
  (base_probability fish < 1 # 1000)%Q ->
  replicate fish (py_int (base_probability fish * 1000)%Q) = [].
Proof.
  intros H. apply py_int_small in H. unfold replicate.
  now replace (Z.to_nat _) with 0%nat by lia.
Qed.

Lemma weighted_choices_small fish_list :
  (forall fish, In fish fish_list -> (base_probability fish < 1 # 1000)%Q) ->
  weighted_choices fish_list = [].
Proof.
  intros H. rewrite weighted_choices_flat_map.
  induction fish_list as [| x l IH]; simpl; [reflexivity |].
  rewrite replicate_small by (apply H; now left).
  apply IH. intros fish Hin. apply H. now right.
Qed.

Lemma choice_nil {A} (k : nat) : choice (@nil A) k = None.
Proof. unfold choice. simpl. now destruct k. Qed.

Lemma choice_repeat {A} (x : A) (n k : nat) :
  (0 < n)%nat -> choice (repeat x n) k = Some x.
Proof.
  intros Hn. unfold choice. rewrite repeat_length.
  apply nth_error_repeat. apply Nat.mod_upper_bound. lia.
Qed.

(** The selector draws from the replicated list of the catalog it got. *)
Lemma generate_random_fish_choice current_time k self fish_list self' :
  get_all_fish_species current_time self = (Ret fish_list, self') ->
  generate_random_fish current_time k self
  = (Ret (choice (weighted_choices fish_list) k), self').
Proof.
  intros H. unfold generate_random_fish, bind. rewrite H.
  destruct fish_list as [| x l].
  - change (weighted_choices []) with (@nil FishSpecies).
    now rewrite choice_nil.
  - destruct (weighted_choices (x :: l)) eqn:E; [| reflexivity].
    now rewrite choice_nil.
Qed.

Lemma generate_random_fish_raise current_time k self e self' :
  get_all_fish_species current_time self = (Raise e, self') ->
  generate_random_fish current_time k self = (Raise e, self').
Proof.
  intros H. unfold generate_random_fish, bind. now rewrite H.
Qed.

End Selector.

(** C10: whenever the catalog handed to the selector is non-empty and
    every species in it has [base_probability < 0.001], each species is
    replicated zero times (the scaled probability truncates to 0 when the
    probability is not negative, and to a non-positive count otherwise),
    the weighted list is empty and [generate_random_fish] returns [None],
    as it does on an empty catalog. *)
Theorem selector_none_below_one_thousandth (current_time : Q) (k : nat)
    (self self' : FishingGame) (fish_list : list FishSpecies) :
  get_all_fish_species current_time self = (Ret fish_list, self') ->
  fish_list <> [] ->
  (forall fish, In fish fish_list -> (base_probability fish < 1 # 1000)%Q) ->
  (forall fish, In fish fish_list ->
     replicate fish (py_int (base_probability fish * 1000)%Q) = []
     /\ ((0 <= base_probability fish)%Q ->
         py_int (base_probability fish * 1000)%Q = 0))
  /\ weighted_choices fish_list = []
  /\ generate_random_fish current_time k self = (Ret None, self')
  /\ generate_random_fish current_time k (init (store_of [] []))
     = (Ret None, with_store (tick (store_of [] [])) (init (store_of [] []))).
Proof.
  intros Hget _ Hsmall. split; [| split; [| split]].
  - intros fish Hin. split.
    + apply replicate_small. now apply Hsmall.
    + intros Hpos. apply py_int_small_nonneg; [exact Hpos | now apply Hsmall].
  - now apply weighted_choices_small.
  - rewrite (generate_random_fish_choice _ _ _ _ _ Hget).
    rewrite weighted_choices_small by exact Hsmall.
    now rewrite choice_nil.
  - reflexivity.
Qed.

(** A catalog holding only the koi, whose probability is 1/2048. *)
Lemma selector_none_below_one_thousandth_witness :
  generate_random_fish 0 7 (init (store_of [koi] []))
  = (Ret None,
     set_cache [koi] 0 (with_store (tick (store_of [koi] []))
                          (init (store_of [koi] [])))).
Proof.
  apply (selector_none_below_one_thousandth 0 7 (init (store_of [koi] [])) _ [koi]).
  - reflexivity.
  - discriminate.
  - intros fish [<- | []]. reflexivity.
Defined.

(** C1 at the catalog [[carp; koi]]: the koi has a positive probability,
    1/2048 against 1/2 for the carp, so proportional selection returns it
    once in 1025 draws on average; the selector replicates the carp 500
    times and the koi not at all, and returns the carp whatever index is
    drawn. *)
Theorem selector_never_returns_small_probability (current_time : Q) (k : nat) :
  (0 < base_probability koi)%Q
  /\ weighted_choices [carp; koi] = repeat carp 500
  /\ fst (generate_random_fish current_time k (init pond)) = Ret (Some carp).
Proof.
  split; [reflexivity |].
  assert (Hw : weighted_choices [carp; koi] = repeat carp 500)
    by (vm_compute; reflexivity).
  split; [exact Hw |].
  rewrite (generate_random_fish_choice current_time k (init pond) [carp; koi]
             (set_cache [carp; koi] current_time
                (with_store (tick pond) (init pond)))) by reflexivity.
  cbn [fst]. rewrite Hw, choice_repeat by lia. reflexivity.
Qed.

(** ** The catch evaluator on a catalog without eligible species *)

Lemma cast_line_no_fish player_id now k z self self' :
  generate_random_fish now k self = (Ret None, self') ->
  cast_line player_id now k z self
  = (Ret (failed_cast "Failed to generate fish"), self').
Proof.
  intros H. unfold cast_line, bind. now rewrite H.
Qed.

(** C8, as amended: when no species of the catalog has a positive
    probability, the selector returns [None] (it raises nothing), and
    [cast_line] answers with a failed result (no fish, no weight, no
    points, not a personal best) whose message is "Failed to generate
    fish"; the table of catches is as it was. *)
Theorem cast_line_without_eligible_species (player_id : string) (now : Q)
    (k : nat) (z : Q) (self self' : FishingGame) (fish_list : list FishSpecies) :
  get_all_fish_species now self = (Ret fish_list, self') ->
  (forall fish, In fish fish_list -> ~ (0 < base_probability fish)%Q) ->
  generate_random_fish now k self = (Ret None, self')
  /\ cast_line player_id now k z self
     = (Ret {| success := false; fish := None; cast_weight := None;
               cast_points := None; cast_is_personal_best := false;
               message := "Failed to generate fish" |}, self')
  /\ catches_tbl (supabase self') = catches_tbl (supabase self).
Proof.
  intros Hget Hnone.
  assert (Hsel : generate_random_fish now k self = (Ret None, self')).
  { rewrite (generate_random_fish_choice _ _ _ _ _ Hget).
    rewrite weighted_choices_small; [now rewrite choice_nil |].
    intros fish Hin. apply Qle_lt_trans with (y := 0%Q).
    - apply Qnot_lt_le. now apply Hnone.
    - reflexivity. }
  split; [exact Hsel |]. split.
  - now apply cast_line_no_fish.
  - pose proof (get_all_fish_species_catches now self) as Hc.
    now rewrite Hget in Hc.
Qed.

(** A cast on a store without species, for a player with one catch on
    record. *)
Lemma cast_line_without_eligible_species_witness :
  cast_line "p1" 0 0 0 (init (store_of [] [caught 0 "p1" "carp" 1 true]))
  = (Ret (failed_cast "Failed to generate fish"),
     with_store (tick (store_of [] [caught 0 "p1" "carp" 1 true]))
       (init (store_of [] [caught 0 "p1" "carp" 1 true]))).
Proof.
  refine (proj1 (proj2 (cast_line_without_eligible_species "p1" 0 0 0
                          (init (store_of [] [caught 0 "p1" "carp" 1 true]))
                          _ [] eq_refl _))).
  intros fish [].
Defined.

(** C8, as stated, fails on the message: on an empty catalog the failed
    result reads "Failed to generate fish", not "no species available". *)
Lemma cast_line_message_counterexample :
  exists r,
    fst (cast_line "p1" 0 0 0 (init (store_of [] []))) = Ret r
    /\ success r = false
    /\ message r = "Failed to generate fish"
    /\ message r <> "no species available".
Proof.
  eexists. split; [reflexivity |]. repeat split. discriminate.
Qed.

(** ** The weight sampler *)

Section WeightSampler.

Lemma clamp_in_range lo hi w :
  (lo <= hi)%Q -> (lo <= py_max lo (py_min hi w) <= hi)%Q.
Proof.
  intros H. unfold py_max, py_min.
  destruct (Qltb w hi) eqn:E1.
  - apply Qltb_lt in E1. destruct (Qltb lo w) eqn:E2.
    + apply Qltb_lt in E2. lra.
    + lra.
  - destruct (Qltb lo hi) eqn:E2; lra.
Qed.

(** Rounding moves a number by at most one half. *)
Lemma round_half_even_near x :
  (inject_Z (round_half_even x) - (1 # 2) <= x
   <= inject_Z (round_half_even x) + (1 # 2))%Q.
Proof.
  unfold round_half_even.
  pose proof (Qfloor_le x) as Hlo. pose proof (Qlt_floor x) as Hhi.
  rewrite inject_Z_plus in Hhi. change (inject_Z 1) with 1%Q in Hhi.
  assert (Hs : (inject_Z (Qfloor x + 1) == inject_Z (Qfloor x) + 1)%Q)
    by (rewrite inject_Z_plus; reflexivity).
  destruct (Qltb (x - inject_Z (Qfloor x)) (1 # 2)) eqn:E1.
  - apply Qltb_lt in E1. lra.
  - apply Qltb_ge in E1.
    destruct (Qltb (1 # 2) (x - inject_Z (Qfloor x))) eqn:E2.
    + rewrite Hs. lra.
    + apply Qltb_ge in E2. destruct (Z.even (Qfloor x)); [| rewrite Hs]; lra.
Qed.




(** With equal bounds the deviation is zero and the draw is the bound. *)
Lemma gauss_degenerate (lo hi z : Q) :
  (lo == hi)%Q -> (gauss ((lo + hi) / 2) ((hi - lo) / 6) z == lo)%Q.
Proof.
  intros H. unfold gauss. rewrite H. field.
Qed.

Lemma generate_weight_degenerate fish z :
  (min_weight fish == max_weight fish)%Q ->
  generate_weight fish z = py_round2 (min_weight fish).
Proof.
  intros H. unfold generate_weight. cbv zeta. f_equal.
  pose proof (gauss_degenerate _ _ z H) as Hg.
  unfold py_min.
  replace (Qltb _ (max_weight fish)) with false
    by (symmetry; apply Qltb_ge; rewrite Hg, H; apply Qle_refl).
  unfold py_max.
  replace (Qltb _ (max_weight fish)) with false
    by (symmetry; apply Qltb_ge; rewrite H; apply Qle_refl).
  reflexivity.
Qed.

End WeightSampler.

(** C4 at the koi, whose two bounds are 0.1875: the deviation is zero, the
    clamped draw is 0.1875 for every deviate [z], and rounding it to two
    decimals returns 0.19, above [max_weight] and different from the
    shared bound. *)
Theorem generate_weight_leaves_range (z : Q) :
  (min_weight koi <= max_weight koi)%Q
  /\ generate_weight koi z = (19 # 100)%Q
  /\ (max_weight koi < generate_weight koi z)%Q
  /\ ~ (generate_weight koi z == min_weight koi)%Q.
Proof.
  rewrite (generate_weight_degenerate koi z) by reflexivity.
  repeat split; discriminate.
Qed.

(** ** The personal-best check *)

Section PersonalBest.

Lemma insert_desc_head c l :
  exists h t, insert_desc c l = h :: t
    /\ (h = c \/ In h l)
    /\ (weight c <= weight h)%Q
    /\ (forall h' t', l = h' :: t' ->
          (weight h' <= weight h)%Q).
Proof.
  destruct l as [| h' t']; simpl.
  - exists c, []. repeat split; [now left | apply Qle_refl | discriminate].
  - destruct (Qltb (weight h') (weight c)) eqn:E.
    + exists c, (h' :: t'). apply Qltb_lt in E.
      repeat split; [now left | apply Qle_refl |].
      intros h'' t'' [= <- <-]. now apply Qlt_le_weak.
    + exists h', (insert_desc c t'). apply Qltb_ge in E.
      repeat split; [right; now left | exact E |].
      intros h'' t'' [= <- <-]. apply Qle_refl.
Qed.

Lemma insert_desc_In c l y : In y (insert_desc c l) -> y = c \/ In y l.
Proof.
  induction l as [| b l IH]; simpl.
  - intros [<- | []]. now left.
  - destruct (Qltb (weight b) (weight c)).
    + intros [<- | [<- | H]]; [now left | right; now left | right; now right].
    + intros [<- | H]; [right; now left |].
      destruct (IH H) as [-> | H']; [now left | right; now right].
Qed.

Lemma order_weight_desc_In l y : In y (order_weight_desc l) -> In y l.
Proof.
  induction l as [| a l IH]; [intros [] |].
  cbn [order_weight_desc fold_right].
  change (fold_right insert_desc [] l) with (order_weight_desc l).
  intros H. destruct (insert_desc_In _ _ _ H) as [-> | H']; [now left |].
  right. now apply IH.
Qed.

(** The first row of the ordered list is a row of the list and no row is
    heavier. *)
Lemma order_weight_desc_head l :
  match order_weight_desc l with
  | [] => l = []
  | h :: _ => In h l /\ forall c, In c l -> (weight c <= weight h)%Q
  end.
Proof.
  induction l as [| x l IH]; [reflexivity |].
  cbn [order_weight_desc fold_right].
  change (fold_right insert_desc [] l) with (order_weight_desc l).
  destruct (insert_desc_head x (order_weight_desc l))
    as (h & t & -> & Hin & Hx & Hhead).
  split.
  - destruct Hin as [-> | Hin]; [now left |].
    right. now apply order_weight_desc_In.
  - intros c [<- | Hc]; [exact Hx |].
    destruct (order_weight_desc l) as [| h' t'] eqn:E.
    + subst l. destruct Hc.
    + destruct IH as [_ Hmax].
      apply Qle_trans with (y := weight h'); [now apply Hmax |].
      now apply (Hhead h' t').
Qed.

Lemma heaviest_spec p f s :
  match heaviest p f s with
  | [] => prior_catches p f s = []
  | h :: _ => In h (prior_catches p f s)
              /\ forall c, In c (prior_catches p f s) -> (weight c <= weight h)%Q
  end.
Proof.
  unfold heaviest. fold (prior_catches p f s).
  pose proof (order_weight_desc_head (prior_catches p f s)) as H.
  destruct (order_weight_desc (prior_catches p f s)); exact H.
Qed.

Lemma check_personal_best_answer p f w self :
  next_fault (supabase self) = NoFault ->
  check_personal_best p f w self
  = (Ret match heaviest p f (supabase self) with
         | [] => true
         | h :: _ => Qltb (weight h) w
         end,
     with_store (tick (supabase self)) self).
Proof.
  intros Hok.
  unfold check_personal_best, bind, on_store, select_best_weight, execute_read.
  rewrite Hok. destruct (heaviest p f (supabase self)); reflexivity.
Qed.

End PersonalBest.

(** C5: when the store answers the query, the check returns [True] if the
    player has no earlier catch of the species, and otherwise returns
    [True] exactly when the new weight is strictly greater than the
    player's prior best weight for it; a weight equal to the prior best is
    not a new best. *)
Theorem personal_best_check (p f : string) (w : Q) (self : FishingGame) :
  next_fault (supabase self) = NoFault ->
  exists b,
    fst (check_personal_best p f w self) = Ret b
    /\ (prior_catches p f (supabase self) = [] -> b = true)
    /\ (forall best,
          prior_best p f (supabase self) best ->
          (b = true <-> (best < w)%Q) /\ ((best == w)%Q -> b = false)).
Proof.
  intros Hok. rewrite (check_personal_best_answer _ _ _ _ Hok). cbn [fst].
  pose proof (heaviest_spec p f (supabase self)) as Hh.
  destruct (heaviest p f (supabase self)) as [| h t].
  - exists true. split; [reflexivity |]. split; [reflexivity |].
    intros best [(c & Hin & _) _]. rewrite Hh in Hin. destruct Hin.
  - exists (Qltb (weight h) w). destruct Hh as [Hin Hmax].
    split; [reflexivity |]. split.
    + intros Hnil. rewrite Hnil in Hin. destruct Hin.
    + intros best [(c & Hc & Hbest) Hle].
      assert (Heq : (weight h == best)%Q).
      { apply Qle_antisym; [now apply Hle |].
        rewrite <- Hbest. now apply Hmax. }
      split.
      * rewrite Qltb_lt. split; intros Hlt.
        -- now rewrite <- Heq.
        -- now rewrite Heq.
      * intros Htie. apply Qltb_ge. rewrite Heq, Htie. apply Qle_refl.
Qed.

(** Player [p1] holds carps of 1.25 and 1.5; a new carp of 1.5 ties with
    the prior best and is not a personal best. *)
Lemma personal_best_check_witness :
  fst (check_personal_best "p1" "carp" (3 # 2) (init pond_with_history))
  = Ret false.
Proof.
  destruct (personal_best_check "p1" "carp" (3 # 2) (init pond_with_history)
              eq_refl) as (b & -> & _ & Hbest).
  destruct (Hbest (3 # 2)%Q) as [_ Htie].
  - split.
    + exists (caught 1 "p1" "carp" (3 # 2) true).
      split; [right; now left | reflexivity].
    + intros c [<- | [<- | []]]; discriminate.
  - now rewrite Htie.
Defined.

(** ** The catch evaluator *)

(** The three ways [cast_line] returns a result. *)
Lemma cast_line_returns player_id now k z self r self' :
  cast_line player_id now k z self = (Ret r, self') ->
  (generate_random_fish now k self = (Ret None, self')
   /\ r = failed_cast "Failed to generate fish")
  \/ exists fish self1 b self2,
       generate_random_fish now k self = (Ret (Some fish), self1)
       /\ check_personal_best player_id (id fish) (generate_weight fish z) self1
          = (Ret b, self2)
       /\ ((save_catch player_id fish (generate_weight fish z) b now self2
            = (Ret None, self')
            /\ r = failed_cast "Failed to save catch")
           \/ (exists row,
                 save_catch player_id fish (generate_weight fish z) b now self2
                 = (Ret (Some row), self')
                 /\ r = {| success := true;
                           fish := Some fish;
                           cast_weight := Some (generate_weight fish z);
                           cast_points := Some (points fish);
                           cast_is_personal_best := b;
                           message := ("Caught a " ++ name fish ++ "!")%string |})).
Proof.
  unfold cast_line. unfold bind at 1.
  destruct (generate_random_fish now k self) as [[[fish |] | e] self1];
    [| intros [= <- <-]; now left | discriminate].
  unfold bind at 1.
  destruct (check_personal_best player_id (id fish) (generate_weight fish z) self1)
    as [[b | e] self2] eqn:Ebest; [| discriminate].
  unfold bind at 1.
  destruct (save_catch player_id fish (generate_weight fish z) b now self2)
    as [[[row |] | e] self3] eqn:Esave; [| | discriminate];
    intros [= <- <-]; right; exists fish, self1, b, self2;
    (split; [reflexivity |]); (split; [exact Ebest |]).
  - right. exists row. now split.
  - left. now split.
Qed.

(** C9: a result of [cast_line] with [success = False] has no fish, no
    weight, no points and is not a personal best; a result with
    [success = True] carries the species the selector returned, the weight
    sampled for it, that species' points and the flag computed by the
    personal-best check. *)
Theorem cast_line_result_shape (player_id : string) (now : Q) (k : nat) (z : Q)
    (self self' : FishingGame) (r : CastResult) :
  cast_line player_id now k z self = (Ret r, self') ->
  (success r = false ->
   fish r = None /\ cast_weight r = None /\ cast_points r = None
   /\ cast_is_personal_best r = false)
  /\ (success r = true ->
      exists species self1 self2,
        generate_random_fish now k self = (Ret (Some species), self1)
        /\ check_personal_best player_id (id species)
             (generate_weight species z) self1
           = (Ret (cast_is_personal_best r), self2)
        /\ fish r = Some species
        /\ cast_weight r = Some (generate_weight species z)
        /\ cast_points r = Some (points species)).
Proof.
  intros H. apply cast_line_returns in H.
  destruct H as [[_ ->] | (species & self1 & b & self2 & Hsel & Hbest & Hsave)].
  - split; [intros _; now repeat split | discriminate].
  - destruct Hsave as [[_ ->] | (row & _ & ->)].
    + split; [intros _; now repeat split | discriminate].
    + split; [discriminate |]. intros _.
      exists species, self1, self2. now repeat split.
Qed.

(** Player [p1] casts on the pond: a carp of 1.56, first of its kind. *)
Lemma cast_line_result_shape_witness :
  exists r self',
    cast_line "p1" 10 3 (1 # 3) (init pond) = (Ret r, self')
    /\ success r = true
    /\ fish r = Some carp
    /\ cast_weight r = Some (generate_weight carp (1 # 3))
    /\ cast_points r = Some 10
    /\ cast_is_personal_best r = true.
Proof.
  destruct (cast_line "p1" 10 3 (1 # 3) (init pond)) as [[r | e] self'] eqn:E;
    [| vm_compute in E; discriminate].
  exists r, self'. split; [reflexivity |].
  pose proof (cast_line_result_shape "p1" 10 3 (1 # 3) (init pond) self' r E)
    as [_ Hok].
  assert (Hs : success r = true) by (vm_compute in E; now inversion E).
  destruct (Hok Hs) as (species & self1 & self2 & Hsel & Hbest & Hf & Hw & Hp).
  assert (Hsp : species = carp) by (vm_compute in Hsel; now inversion Hsel).
  subst species. repeat split; try assumption.
  vm_compute in E. now inversion E.
Defined.

(** * Further properties *)

(** ** The session verifier *)

Lemma split_on_no_space s : has_space s = false -> split_on " " s = [s].
Proof.
  induction s as [| c s IH]; simpl; [reflexivity |].
  intros H. apply orb_false_iff in H as [Hc Hs].
  rewrite Hc, (IH Hs). reflexivity.
Qed.

Lemma split_on_word a b :
  has_space a = false ->
  split_on " " (a ++ String " " b)%string = a :: split_on " " b.
Proof.
  induction a as [| c a IH]; simpl; [reflexivity |].
  intros H. apply orb_false_iff in H as [Hc Ha].
  rewrite Hc, (IH Ha). reflexivity.
Qed.

Lemma word_then_space_nonempty a b : String.eqb (a ++ String " " b)%string "" = false.
Proof. destruct a; reflexivity. Qed.

Section SessionFacts.

Variable jwt_decode : string -> JwtOutcome.

Lemma require_auth_second_word f a b st :
  has_space a = false ->
  require_auth jwt_decode f (Some (a ++ String " " b)%string) st
  = match split_on " " b with
    | token :: _ => serve_token jwt_decode f token st
    | [] => (Ret (Rejected InvalidAuthorizationHeaderFormat), st)
    end.
Proof.
  intros Ha. unfold require_auth, serve_token.
  rewrite word_then_space_nonempty, split_on_word by exact Ha.
  destruct (split_on " " b); reflexivity.
Qed.

Lemma require_auth_two_words f scheme token st :
  has_space scheme = false ->
  has_space token = false ->
  require_auth jwt_decode f (Some (scheme ++ " " ++ token)%string) st
  = serve_token jwt_decode f token st.
Proof.
  intros Hs Ht.
  change (scheme ++ " " ++ token)%string
    with (scheme ++ String " " token)%string.
  rewrite require_auth_second_word by exact Hs.
  now rewrite split_on_no_space.
Qed.

Lemma serve_token_decoded f token payload st :
  jwt_decode token = Decoded payload ->
  payload <> ∅ ->
  serve_token jwt_decode f token st
  = (result <- f {| user_id := payload !! "sub";
                    user_email := payload !! "email" |} ;;
     ret (Served result)) st.
Proof.
  intros Hdec Hne. unfold serve_token, verify_token, payload_truthy.
  rewrite Hdec. destruct (decide (payload = ∅)); [contradiction | reflexivity].
Qed.

End SessionFacts.

Section SessionProperties.

Variable jwt_decode : string -> JwtOutcome.

(** X1: the token [require_auth] verifies is the word between the first
    and the second space of the header.  The word before the first space
    (the scheme) is not looked at, and whatever follows a second space is
    ignored. *)
Theorem require_auth_reads_second_word (f : Handler) (scheme token : string)
    (st : ThrottleState) :
  has_space scheme = false ->
  has_space token = false ->
  require_auth jwt_decode f (Some (scheme ++ " " ++ token)%string) st
  = serve_token jwt_decode f token st
  /\ forall more,
       require_auth jwt_decode f
         (Some (scheme ++ " " ++ token ++ " " ++ more)%string) st
       = serve_token jwt_decode f token st.
Proof.
  intros Hs Ht. split.
  - now apply require_auth_two_words.
  - intros more.
    change (scheme ++ " " ++ token ++ " " ++ more)%string
      with (scheme ++ String " " (token ++ String " " more))%string.
    rewrite require_auth_second_word by exact Hs.
    now rewrite split_on_word.
Qed.

(** X2: without a header, with an empty header, or with a header that
    holds no space, [require_auth] answers 401 by itself: no token is
    decoded, the view does not run and the throttle state is untouched. *)
Theorem require_auth_needs_two_words (f : Handler) (st : ThrottleState) :
  require_auth jwt_decode f None st = (Ret (Rejected NoAuthorizationHeader), st)
  /\ require_auth jwt_decode f (Some "") st
     = (Ret (Rejected NoAuthorizationHeader), st)
  /\ forall header,
       header <> "" -> has_space header = false ->
       require_auth jwt_decode f (Some header) st
       = (Ret (Rejected InvalidAuthorizationHeaderFormat), st).
Proof.
  split; [reflexivity |]. split; [reflexivity |].
  intros header Hne Hsp. unfold require_auth.
  destruct (String.eqb_spec header "") as [-> | _]; [contradiction |].
  now rewrite split_on_no_space.
Qed.

(** X3: an expired token, a token the library refuses and a token whose
    payload is empty all get the same 401 answer and leave the state
    untouched; a token with a non-empty payload runs the view on a request
    whose identity is the payload's [sub] and [email]. *)
Theorem require_auth_verdict (f : Handler) (scheme token : string)
    (st : ThrottleState) :
  has_space scheme = false ->
  has_space token = false ->
  let answer :=
    require_auth jwt_decode f (Some (scheme ++ " " ++ token)%string) st in
  (jwt_decode token = ExpiredSignatureError
   \/ (exists reason, jwt_decode token = InvalidTokenError reason)
   \/ jwt_decode token = Decoded ∅ ->
   answer = (Ret (Rejected InvalidOrExpiredToken), st))
  /\ (forall payload,
        jwt_decode token = Decoded payload -> payload <> ∅ ->
        answer
        = (result <- f {| user_id := payload !! "sub";
                          user_email := payload !! "email" |} ;;
           ret (Served result)) st).
Proof.
  intros Hs Ht answer. subst answer.
  rewrite (require_auth_two_words _ f scheme token st Hs Ht). split.
  - unfold serve_token, verify_token.
    intros [-> | [[reason ->] | ->]]; reflexivity.
  - intros payload Hdec Hne. now apply serve_token_decoded.
Qed.

(** X4: behind [require_auth], a verified token whose payload has no
    [sub], or an empty one, is stopped by either throttle with its own
    401 "Unauthorized": the view does not run and nothing is recorded. *)
Theorem missing_subject_is_unauthorized (f : Handler) (scheme token : string)
    (payload : gmap string string) (st : ThrottleState)
    (max_requests : Z) (window_seconds cooldown_seconds now t_set : Q) :
  has_space scheme = false ->
  has_space token = false ->
  jwt_decode token = Decoded payload ->
  payload <> ∅ ->
  truthy (payload !! "sub") = None ->
  require_auth jwt_decode (rate_limit max_requests window_seconds f now)
    (Some (scheme ++ " " ++ token)%string) st
  = (Ret (Served (Pair (jsonify ErrUnauthorized) 401)), st)
  /\ require_auth jwt_decode (cooldown_required cooldown_seconds f now t_set)
       (Some (scheme ++ " " ++ token)%string) st
     = (Ret (Served (Pair (jsonify ErrUnauthorized) 401)), st).
Proof.
  intros Hs Ht Hdec Hne Hsub. split.
  - rewrite (require_auth_two_words _ _ scheme token st Hs Ht).
    rewrite (serve_token_decoded _ _ token payload st Hdec Hne).
    unfold bind. now rewrite rate_limit_unauthorized.
  - rewrite (require_auth_two_words _ _ scheme token st Hs Ht).
    rewrite (serve_token_decoded _ _ token payload st Hdec Hne).
    unfold bind. now rewrite cooldown_required_unauthorized.
Qed.

End SessionProperties.

Lemma require_auth_reads_second_word_witness :
  require_auth sample_decode ok_handler (Some "Basic good and more") empty_state
  = (Ret (Served (Pair (jsonify (HandlerBody "caught")) 200)), empty_state).
Proof.
  destruct (require_auth_reads_second_word sample_decode ok_handler
              "Basic" "good" empty_state eq_refl eq_refl) as [_ H].
  exact (H "and more").
Defined.

Lemma require_auth_needs_two_words_witness :
  require_auth sample_decode ok_handler (Some "good") empty_state
  = (Ret (Rejected InvalidAuthorizationHeaderFormat), empty_state).
Proof.
  destruct (require_auth_needs_two_words sample_decode ok_handler empty_state)
    as (_ & _ & H).
  apply H; [discriminate | reflexivity].
Defined.

Lemma require_auth_verdict_witness :
  require_auth sample_decode ok_handler (Some "Bearer hollow") empty_state
  = (Ret (Rejected InvalidOrExpiredToken), empty_state).
Proof.
  destruct (require_auth_verdict sample_decode ok_handler "Bearer" "hollow"
              empty_state eq_refl eq_refl) as [H _].
  apply H. right. right. reflexivity.
Defined.

Lemma missing_subject_is_unauthorized_witness :
  require_auth sample_decode (rate_limit 3 60 ok_handler 0)
    (Some "Bearer anonymous") empty_state
  = (Ret (Served (Pair (jsonify ErrUnauthorized) 401)), empty_state).
Proof.
  refine (proj1 (missing_subject_is_unauthorized sample_decode ok_handler
                   "Bearer" "anonymous" {[ "email" := "nobody@example.org" ]}
                   empty_state 3 60 5 0 1 eq_refl eq_refl eq_refl _ eq_refl)).
  intros H. apply (f_equal (fun m => m !! "email")) in H.
  vm_compute in H. discriminate.
Defined.

(** ** More on the rate limiter *)

Lemma prune_length now window_seconds l :
  (length (prune now window_seconds l) <= length l)%nat.
Proof. apply filter_length_le. Qed.

Lemma prune_nothing_recent now window_seconds l :
  (window_seconds <= 0)%Q ->
  (forall t, In t l -> (t <= now)%Q) ->
  prune now window_seconds l = [].
Proof.
  intros Hw Hpast. induction l as [| t l IH]; [reflexivity |].
  unfold prune in *. simpl.
  replace (Qltb (now - t) window_seconds) with false.
  - apply IH. intros t' Hin. apply Hpast. now right.
  - symmetry. apply Qltb_ge.
    assert (Ht : (t <= now)%Q) by (apply Hpast; now left). lra.
Qed.

(** The state in which the limiter leaves its own bookkeeping: the one it
    returns when it rejects, or the one it hands to the view. *)
Lemma rate_limit_bookkeeping max_requests window_seconds f now request u st :
  truthy (user_id request) = Some u ->
  exists l,
    (rate_limit max_requests window_seconds f now request st
     = (Ret (Pair (jsonify (ErrRateLimit max_requests window_seconds)) 429),
        set_rate u l st)
     \/ rate_limit max_requests window_seconds f now request st
        = f request (set_rate u l st))
    /\ Z.of_nat (length l) <= Z.max max_requests (Z.of_nat (length (history u st))).
Proof.
  intros Hu.
  pose proof (prune_length now window_seconds (history u st)) as Hlen.
  destruct (Z.le_gt_cases max_requests
              (Z.of_nat (length (prune now window_seconds (history u st)))))
    as [Hfull | Hroom].
  - exists (prune now window_seconds (history u st)). split; [| lia].
    left. now apply rate_limit_rejects.
  - exists (prune now window_seconds (history u st) ++ [now]). split.
    + right. apply rate_limit_admits; [exact Hu | lia].
    + rewrite length_app. simpl. lia.
Qed.

(** X5: the history kept for a player never outgrows the limit: after any
    sequence of calls it holds at most [max_requests] timestamps, or at
    most as many as it held before the first of them if that was more. *)
Theorem rate_limit_history_bounded (max_requests : Z) (window_seconds : Q)
    (u : string) (times : list Q) (st : ThrottleState) :
  truthy (Some u) = Some u ->
  Z.of_nat (length (history u (after_calls max_requests window_seconds u times st)))
  <= Z.max max_requests (Z.of_nat (length (history u st))).
Proof.
  intros Hu. revert st. induction times as [| now times IH]; intros st.
  - simpl. lia.
  - cbn [after_calls fold_left].
    change (fold_left _ times ?s)
      with (after_calls max_requests window_seconds u times s).
    etransitivity; [apply IH |].
    destruct (rate_limit_bookkeeping max_requests window_seconds ok_handler now
                (request_of u) u st Hu) as (l & [-> | ->] & Hl);
      cbn [snd ok_handler ret]; rewrite history_set_rate; lia.
Qed.

Lemma rate_limit_history_bounded_witness :
  Z.of_nat (length (history "p1"
                      (after_calls 2 60 "p1" [0; 1; 2; 70; 71; 72]%Q empty_state)))
  <= Z.max 2 (Z.of_nat (length (history "p1" empty_state))).
Proof.
  apply (rate_limit_history_bounded 2 60 "p1" [0; 1; 2; 70; 71; 72]%Q
           empty_state eq_refl).
Defined.

(** X6: a call of one player changes nothing but that player's history:
    the histories of the other players and every cooldown are, in the
    state returned on rejection or handed to the view, as they were. *)
Theorem rate_limit_touches_one_history (max_requests : Z) (window_seconds : Q)
    (f : Handler) (now : Q) (request : Request) (u : string) (st : ThrottleState) :
  truthy (user_id request) = Some u ->
  exists st1,
    (rate_limit max_requests window_seconds f now request st
     = (Ret (Pair (jsonify (ErrRateLimit max_requests window_seconds)) 429), st1)
     \/ rate_limit max_requests window_seconds f now request st = f request st1)
    /\ (forall v, v <> u -> rate_limit_storage st1 !! v = rate_limit_storage st !! v)
    /\ cooldown_storage st1 = cooldown_storage st.
Proof.
  intros Hu.
  destruct (rate_limit_bookkeeping max_requests window_seconds f now request u st Hu)
    as (l & Hcases & _).
  exists (set_rate u l st). split; [exact Hcases |]. split; [| reflexivity].
  intros v Hv. unfold set_rate; simpl. now apply lookup_insert_ne.
Qed.

Lemma rate_limit_touches_one_history_witness :
  exists st1,
    (rate_limit 3 60 ok_handler 5 (request_of "p1") one_request_at_zero
     = (Ret (Pair (jsonify (ErrRateLimit 3 60)) 429), st1)
     \/ rate_limit 3 60 ok_handler 5 (request_of "p1") one_request_at_zero
        = ok_handler (request_of "p1") st1)
    /\ (forall v, v <> "p1" ->
          rate_limit_storage st1 !! v = rate_limit_storage one_request_at_zero !! v)
    /\ cooldown_storage st1 = cooldown_storage one_request_at_zero.
Proof.
  apply (rate_limit_touches_one_history 3 60 ok_handler 5 (request_of "p1") "p1"
           one_request_at_zero eq_refl).
Defined.

(** X7: two settings at the edge.  With [max_requests <= 0] every request
    of an identified player is rejected and the view never runs.  With
    [window_seconds <= 0], a limit of at least one and no timestamp from
    the future on record, every request is admitted, on a history that
    holds this request alone. *)
Theorem rate_limit_degenerate_settings (max_requests : Z) (window_seconds : Q)
    (f : Handler) (now : Q) (request : Request) (u : string) (st : ThrottleState) :
  truthy (user_id request) = Some u ->
  (max_requests <= 0 ->
   rate_limit max_requests window_seconds f now request st
   = (Ret (Pair (jsonify (ErrRateLimit max_requests window_seconds)) 429),
      set_rate u (prune now window_seconds (history u st)) st))
  /\ ((window_seconds <= 0)%Q -> 1 <= max_requests ->
      (forall t, In t (history u st) -> (t <= now)%Q) ->
      rate_limit max_requests window_seconds f now request st
      = f request (set_rate u [now] st)).
Proof.
  intros Hu. split.
  - intros Hn. apply rate_limit_rejects; [exact Hu | lia].
  - intros Hw Hn Hpast.
    rewrite (rate_limit_admits _ _ _ _ _ u) by
      (try exact Hu; rewrite prune_nothing_recent by assumption; simpl; lia).
    now rewrite prune_nothing_recent by assumption.
Qed.

Lemma rate_limit_degenerate_settings_witness :
  rate_limit 0 60 ok_handler 5 (request_of "p1") empty_state
  = (Ret (Pair (jsonify (ErrRateLimit 0 60)) 429),
     set_rate "p1" (prune 5 60 (history "p1" empty_state)) empty_state).
Proof.
  apply (rate_limit_degenerate_settings 0 60 ok_handler 5 (request_of "p1") "p1"
           empty_state eq_refl).
  lia.
Defined.

(** X8: the limiter wrapped around the cooldown gate.  A request that the
    limiter admits and the cooldown then rejects has still been recorded
    in the player's history; a request the limiter rejects never reaches
    the cooldown check. *)
Theorem rate_limit_before_cooldown (max_requests : Z)
    (window_seconds cooldown_seconds : Q) (f : Handler) (now now' t_set : Q)
    (request : Request) (u : string) (st : ThrottleState) :
  truthy (user_id request) = Some u ->
  let kept := prune now window_seconds (history u st) in
  let wrapped :=
    rate_limit max_requests window_seconds
      (cooldown_required cooldown_seconds f now' t_set) now request st in
  (Z.of_nat (length kept) < max_requests ->
   forall last_cast,
     cooldown_storage st !! u = Some last_cast ->
     (now' - last_cast < cooldown_seconds)%Q ->
     wrapped
     = (Ret (Pair (jsonify (ErrCooldown
                              (cooldown_seconds - (now' - last_cast))%Q)) 429),
        set_rate u (kept ++ [now]) st))
  /\ (max_requests <= Z.of_nat (length kept) ->
      wrapped
      = (Ret (Pair (jsonify (ErrRateLimit max_requests window_seconds)) 429),
         set_rate u kept st)).
Proof.
  intros Hu kept wrapped. subst wrapped. split.
  - intros Hroom last_cast Hlast Hlt.
    rewrite (rate_limit_admits _ _ _ _ _ u) by assumption.
    eapply cooldown_required_denied; [exact Hu |].
    now apply check_cooldown_active.
  - intros Hfull. now apply rate_limit_rejects.
Qed.

Lemma rate_limit_before_cooldown_witness :
  rate_limit 3 60 (cooldown_required 5 ok_handler 12 13) 12 (request_of "p1")
    (set_cooldown "p1" 11 empty_state)
  = (Ret (Pair (jsonify (ErrCooldown (5 - (12 - 11))%Q)) 429),
     set_rate "p1" [12%Q] (set_cooldown "p1" 11 empty_state)).
Proof.
  destruct (rate_limit_before_cooldown 3 60 5 ok_handler 12 12 13
              (request_of "p1") "p1" (set_cooldown "p1" 11 empty_state) eq_refl)
    as [H _].
  apply (H ltac:(vm_compute; reflexivity) 11%Q); reflexivity.
Defined.

(** ** More on the cooldown gate *)

(** X9: arming and checking.  After [set_cooldown] at time [t], the check
    at time [now] passes exactly when [now - t] has reached the cooldown,
    and otherwise reports [C - (now - t)]; the checks of every other
    player answer as before. *)
Theorem cooldown_set_then_check (cooldown_seconds t now : Q) (u : string)
    (st : ThrottleState) :
  ((now - t < cooldown_seconds)%Q ->
   check_cooldown u cooldown_seconds now (set_cooldown u t st)
   = (false, (cooldown_seconds - (now - t))%Q))
  /\ ((cooldown_seconds <= now - t)%Q ->
      check_cooldown u cooldown_seconds now (set_cooldown u t st) = (true, 0%Q))
  /\ (forall v, v <> u ->
        check_cooldown v cooldown_seconds now (set_cooldown u t st)
        = check_cooldown v cooldown_seconds now st).
Proof.
  split; [| split].
  - intros Hlt. apply check_cooldown_active; [| exact Hlt].
    apply lookup_insert_eq.
  - intros Hge. eapply check_cooldown_elapsed; [| exact Hge].
    apply lookup_insert_eq.
  - intros v Hv. unfold check_cooldown, set_cooldown; simpl.
    now rewrite lookup_insert_ne by congruence.
Qed.

Lemma cooldown_set_then_check_witness :
  check_cooldown "p1" 5 13 (set_cooldown "p1" 11 empty_state)
  = (false, (5 - (13 - 11))%Q).
Proof.
  destruct (cooldown_set_then_check 5 11 13 "p1" empty_state) as [H _].
  apply H. reflexivity.
Defined.

(** X10: what a failed check reports.  The remaining time is positive;
    it is at most the cooldown when the recorded cast is not in the future
    of the clock.  A cooldown of zero or less never blocks a player whose
    recorded cast is not in the future. *)
Theorem cooldown_remaining_bounds (cooldown_seconds now : Q) (u : string)
    (st : ThrottleState) :
  (forall remaining,
     check_cooldown u cooldown_seconds now st = (false, remaining) ->
     (0 < remaining)%Q
     /\ forall last_cast,
          cooldown_storage st !! u = Some last_cast ->
          (last_cast <= now)%Q -> (remaining <= cooldown_seconds)%Q)
  /\ ((cooldown_seconds <= 0)%Q ->
      forall last_cast,
        cooldown_storage st !! u = Some last_cast ->
        (last_cast <= now)%Q ->
        check_cooldown u cooldown_seconds now st = (true, 0%Q)).
Proof.
  split.
  - intros remaining. unfold check_cooldown.
    destruct (cooldown_storage st !! u) as [last |]; [| discriminate].
    destruct (Qltb (now - last) cooldown_seconds) eqn:E; [| discriminate].
    apply Qltb_lt in E. intros [= <-]. split; [lra |].
    intros last_cast [= <-] Hpast. lra.
  - intros Hc last_cast Hlast Hpast.
    eapply check_cooldown_elapsed; [exact Hlast | lra].
Qed.

Lemma cooldown_remaining_bounds_witness :
  (0 < 5 - (13 - 11))%Q /\ (5 - (13 - 11) <= 5)%Q.
Proof.
  destruct (cooldown_remaining_bounds 5 13 "p1" (set_cooldown "p1" 11 empty_state))
    as [H _].
  destruct (H (5 - (13 - 11))%Q eq_refl) as [Hpos Hle].
  split; [exact Hpos |].
  apply (Hle 11%Q); [reflexivity | discriminate].
Defined.

(** X11: two casts in a row.  When a cast was admitted and its view
    answered with a pair of status 200 or with a value that is not a
    tuple, the cooldown runs from the moment the view returned: the next
    cast of the player is rejected while [now2 - t_set] is below the
    cooldown, with [C - (now2 - t_set)] remaining, and reaches its view
    from then on. *)
Theorem cooldown_between_casts (cooldown_seconds : Q) (f g : Handler)
    (now1 t_set now2 t_set2 : Q) (request : Request) (u : string)
    (st st1 : ThrottleState) (result : ViewResult) :
  truthy (user_id request) = Some u ->
  fst (check_cooldown u cooldown_seconds now1 st) = true ->
  f request st = (Ret result, st1) ->
  (exists response, result = Pair response 200 \/ result = Plain response) ->
  let st2 := snd (cooldown_required cooldown_seconds f now1 t_set request st) in
  st2 = set_cooldown u t_set st1
  /\ ((now2 - t_set < cooldown_seconds)%Q ->
      cooldown_required cooldown_seconds g now2 t_set2 request st2
      = (Ret (Pair (jsonify (ErrCooldown
                               (cooldown_seconds - (now2 - t_set))%Q)) 429),
         st2))
  /\ ((cooldown_seconds <= now2 - t_set)%Q ->
      cooldown_required cooldown_seconds g now2 t_set2 request st2
      = (r <- g request ;; arm_after u t_set2 r) st2).
Proof.
  intros Hu Hc Hf [response Hres] st2.
  assert (Hst2 : st2 = set_cooldown u t_set st1).
  { subst st2. rewrite (cooldown_required_admitted _ _ _ _ _ _ _ Hu Hc).
    unfold bind at 1. rewrite Hf. destruct Hres as [-> | ->]; reflexivity. }
  split; [exact Hst2 |]. rewrite Hst2. split.
  - intros Hlt. eapply cooldown_required_denied; [exact Hu |].
    apply check_cooldown_active; [apply lookup_insert_eq | exact Hlt].
  - intros Hge. apply cooldown_required_admitted; [exact Hu |].
    erewrite check_cooldown_elapsed; [reflexivity | apply lookup_insert_eq | exact Hge].
Qed.

Lemma cooldown_between_casts_witness :
  cooldown_required 5 ok_handler 13 14 (request_of "p1")
    (snd (cooldown_required 5 ok_handler 10 11 (request_of "p1") empty_state))
  = (Ret (Pair (jsonify (ErrCooldown (5 - (13 - 11))%Q)) 429),
     snd (cooldown_required 5 ok_handler 10 11 (request_of "p1") empty_state)).
Proof.
  destruct (cooldown_between_casts 5 ok_handler ok_handler 10 11 13 14
              (request_of "p1") "p1" empty_state empty_state
              (Pair (jsonify (HandlerBody "caught")) 200)
              eq_refl eq_refl eq_refl
              (ex_intro _ (jsonify (HandlerBody "caught")) (or_introl eq_refl)))
    as (_ & H & _).
  apply H. reflexivity.
Defined.

(** ** More on the species catalog cache *)

Lemma cache_fresh_later t1 t2 self :
  (t1 <= t2)%Q -> cache_fresh t1 self = false -> cache_fresh t2 self = false.
Proof.
  unfold cache_fresh. intros Ht H.
  apply andb_false_iff in H as [H | H]; apply andb_false_iff; [now left | right].
  apply Qltb_ge in H. apply Qltb_ge. lra.
Qed.

(** X12: a refresh is served from memory afterwards.  When a call at time
    [t1] had to fetch and got rows, every call at a time [t2] with
    [t2 - t1] below the time-to-live returns those rows and leaves the
    game, the store and its call count included, as it is. *)
Theorem catalog_served_from_cache_after_refresh (t1 t2 : Q) (self : FishingGame)
    (x : FishSpecies) (l : list FishSpecies) (s' : Store) :
  cache_fresh t1 self = false ->
  select_fish_species (supabase self) = (Ret (x :: l), s') ->
  (t2 - t1 < cache_duration self)%Q ->
  let self1 := snd (get_all_fish_species t1 self) in
  fst (get_all_fish_species t1 self) = Ret (x :: l)
  /\ get_all_fish_species t2 self1 = (Ret (x :: l), self1).
Proof.
  intros Hmiss Hsel Hlt self1. subst self1.
  rewrite (get_all_fish_species_miss _ _ Hmiss), Hsel. cbn [fst snd].
  split; [reflexivity |].
  rewrite get_all_fish_species_hit; [reflexivity |].
  apply cache_fresh_iff. split.
  - exists (x :: l). split; [reflexivity | discriminate].
  - exact Hlt.
Qed.

Lemma catalog_served_from_cache_after_refresh_witness :
  get_all_fish_species 299 (snd (get_all_fish_species 0 (init pond)))
  = (Ret [carp; koi], snd (get_all_fish_species 0 (init pond))).
Proof.
  refine (proj2 (catalog_served_from_cache_after_refresh 0 299 (init pond)
                   carp [koi] (tick pond) eq_refl eq_refl _)).
  reflexivity.
Defined.

(** X13: there is no memory of a fetch that brought nothing.  After a call
    that had to fetch and got no rows, or an exception, the snapshot and
    the refresh time are as before and every later call fetches again: the
    second call is one more call to the store. *)
Theorem catalog_refetches_after_empty_fetch (t1 t2 : Q) (self : FishingGame) :
  cache_fresh t1 self = false ->
  (t1 <= t2)%Q ->
  (fst (get_all_fish_species t1 self) = Ret []
   \/ exists e, fst (get_all_fish_species t1 self) = Raise e) ->
  let self1 := snd (get_all_fish_species t1 self) in
  fish_species_cache self1 = fish_species_cache self
  /\ last_cache_update self1 = last_cache_update self
  /\ cache_fresh t2 self1 = false
  /\ calls (supabase (snd (get_all_fish_species t2 self1)))
     = S (S (calls (supabase self))).
Proof.
  intros Hmiss Ht Hres self1.
  assert (Hself1 : self1 = with_store (snd (select_fish_species (supabase self))) self).
  { subst self1. rewrite (get_all_fish_species_miss _ _ Hmiss) in *.
    destruct (select_fish_species (supabase self)) as [[[| x l] | e] s'];
      try reflexivity.
    destruct Hres as [H | [e H]]; discriminate. }
  assert (Hmiss2 : cache_fresh t2 self1 = false).
  { rewrite Hself1. apply (cache_fresh_later t1 t2 _ Ht). exact Hmiss. }
  split; [now rewrite Hself1 |]. split; [now rewrite Hself1 |].
  split; [exact Hmiss2 |].
  rewrite (get_all_fish_species_miss _ _ Hmiss2).
  pose proof (select_fish_species_calls (supabase self1)) as [Hc2 _].
  pose proof (select_fish_species_calls (supabase self)) as [Hc1 _].
  replace (calls (supabase self1)) with (S (calls (supabase self))) in Hc2
    by (rewrite Hself1; symmetry; exact Hc1).
  destruct (select_fish_species (supabase self1)) as [[[| x l] | e] s'];
    exact Hc2.
Qed.

Lemma catalog_refetches_after_empty_fetch_witness :
  calls (supabase (snd (get_all_fish_species 401
                          (snd (get_all_fish_species 400 stale_game)))))
  = S (S (calls (supabase stale_game))).
Proof.
  refine (proj2 (proj2 (proj2 (catalog_refetches_after_empty_fetch 400 401
                                 stale_game eq_refl _ (or_introl eq_refl))))).
  discriminate.
Defined.

(** X14: a loaded snapshot is never lost.  Whatever the store answers, a
    game that holds a non-empty snapshot holds one after the call, and the
    time-to-live is not changed by the getter. *)
Theorem catalog_snapshot_kept (t : Q) (self : FishingGame) :
  cache_truthy self = true ->
  cache_truthy (snd (get_all_fish_species t self)) = true
  /\ cache_duration (snd (get_all_fish_species t self)) = cache_duration self.
Proof.
  intros Hc. destruct (cache_fresh t self) eqn:E.
  - rewrite get_all_fish_species_hit by exact E. now split.
  - rewrite (get_all_fish_species_miss _ _ E).
    destruct (select_fish_species (supabase self)) as [[[| x l] | e] s'];
      now split.
Qed.

Lemma catalog_snapshot_kept_witness :
  cache_truthy (snd (get_all_fish_species 400 stale_game)) = true.
Proof.
  apply (catalog_snapshot_kept 400 stale_game eq_refl).
Defined.

(** ** More on the weighted random selector *)

Lemma py_int_scaled_ge_1 (p : Q) :
  1 <= py_int (p * 1000)%Q <-> (1 # 1000 <= p)%Q.
Proof.
  destruct p as [n d]. unfold Qle, py_int; simpl. rewrite Pos.mul_1_r.
  split.
  - intros H. destruct (Z.le_gt_cases 0 (n * 1000)) as [Hn | Hn].
    + rewrite Z.quot_div_nonneg in H by lia.
      destruct (Z.le_gt_cases (Z.pos d) (n * 1000)) as [Hle | Hgt]; [lia |].
      rewrite Z.div_small in H; lia.
    + assert (n * 1000 ÷ Z.pos d <= 0) by (apply Z.quot_le_upper_bound; lia).
      lia.
  - intros H. rewrite Z.quot_div_nonneg by lia.
    apply Z.div_le_lower_bound; lia.
Qed.

(** Truncation reads the number, not the fraction that writes it. *)
Lemma py_int_Qeq (p q : Q) : (p == q)%Q -> py_int p = py_int q.
Proof.
  destruct p as [a b], q as [c d]. unfold Qeq, py_int; simpl. intros H.
  rewrite <- (Z.quot_mul_cancel_r a (Z.pos b) (Z.pos d)) by lia.
  rewrite H, (Z.mul_comm c (Z.pos b)).
  apply Z.quot_mul_cancel_l; lia.
Qed.

Lemma In_replicate x fish n : In x (replicate fish n) <-> x = fish /\ 1 <= n.
Proof.
  unfold replicate. split.
  - intros H. split; [now apply repeat_spec in H |].
    destruct (Z.to_nat n) eqn:E; [destruct H | lia].
  - intros [-> Hn]. destruct (Z.to_nat n) eqn:E; [lia | now left].
Qed.

Lemma In_weighted_choices x fish_list :
  In x (weighted_choices fish_list)
  <-> In x fish_list /\ (1 # 1000 <= base_probability x)%Q.
Proof.
  rewrite weighted_choices_flat_map, in_flat_map. split.
  - intros (fish & Hin & Hrep). apply In_replicate in Hrep as [-> Hn].
    split; [exact Hin | now apply py_int_scaled_ge_1].
  - intros [Hin Hp]. exists x. split; [exact Hin |].
    apply In_replicate. split; [reflexivity | now apply py_int_scaled_ge_1].
Qed.

Lemma choice_In {A} (l : list A) k x : choice l k = Some x -> In x l.
Proof. unfold choice. apply nth_error_In. Qed.

Lemma choice_nonempty {A} (l : list A) k : l <> [] -> exists x, choice l k = Some x.
Proof.
  intros Hne. unfold choice.
  destruct (nth_error l (k mod length l)) as [x |] eqn:E; [now exists x |].
  apply nth_error_None in E.
  assert (length l <> 0)%nat by (destruct l; [contradiction | discriminate]).
  pose proof (Nat.mod_upper_bound k (length l)). lia.
Qed.

(** X15: what the selector can return.  A species it returns is a row of
    the catalog whose [base_probability] is at least 0.001; and it returns
    a species, whatever index is drawn, exactly when the catalog has such
    a row. *)
Theorem selector_returns_eligible_species (current_time : Q) (k : nat)
    (self self' : FishingGame) (fish_list : list FishSpecies) :
  get_all_fish_species current_time self = (Ret fish_list, self') ->
  (forall fish,
     fst (generate_random_fish current_time k self) = Ret (Some fish) ->
     In fish fish_list /\ (1 # 1000 <= base_probability fish)%Q)
  /\ ((exists fish, In fish fish_list /\ (1 # 1000 <= base_probability fish)%Q)
      <-> exists fish,
            generate_random_fish current_time k self = (Ret (Some fish), self')).
Proof.
  intros Hget. rewrite (generate_random_fish_choice _ _ _ _ _ Hget). split.
  - intros fish [= H]. apply choice_In in H. now apply In_weighted_choices.
  - split.
    + intros (fish & Hin & Hp).
      destruct (choice_nonempty (weighted_choices fish_list) k) as [x Hx].
      * intros Hnil.
        assert (Hw : In fish (weighted_choices fish_list))
          by now apply In_weighted_choices.
        rewrite Hnil in Hw. destruct Hw.
      * exists x. now rewrite Hx.
    + intros (fish & [= H]). exists fish.
      apply choice_In in H. now apply In_weighted_choices.
Qed.

Lemma selector_returns_eligible_species_witness :
  In carp [carp; koi] /\ (1 # 1000 <= base_probability carp)%Q.
Proof.
  refine (proj1 (selector_returns_eligible_species 0 3 (init pond)
                   (set_cache [carp; koi] 0 (with_store (tick pond) (init pond)))
                   [carp; koi] eq_refl) carp _).
  vm_compute. reflexivity.
Defined.

(** X16: where the selector is exactly proportional.  The probabilities
    whose product with 1000 is a whole number, in binary floating point
    as in exact arithmetic, are the whole numbers [m] of eighths (0.125,
    0.25, 0.5, ...).  When every probability of the catalog is one, with
    [m] at most [2^46] in size so that [125 * m] is a float, the list
    drawn from holds exactly [125 * m] copies of each species, in catalog
    order, so a uniform draw returns each species in proportion to its
    probability. *)
Theorem selector_exact_on_eighths (fish_list : list FishSpecies)
    (eighths : FishSpecies -> Z) :
  (forall fish, In fish fish_list ->
     (base_probability fish == eighths fish # 8)%Q
     /\ Z.abs (eighths fish) <= 2 ^ 46) ->
  weighted_choices fish_list
  = flat_map (fun fish => repeat fish (Z.to_nat (125 * eighths fish))) fish_list
  /\ length (weighted_choices fish_list)
     = list_sum (map (fun fish => Z.to_nat (125 * eighths fish)) fish_list).
Proof.
  intros H.
  assert (Hw : weighted_choices fish_list
               = flat_map (fun fish => repeat fish (Z.to_nat (125 * eighths fish)))
                   fish_list).
  { rewrite weighted_choices_flat_map.
    induction fish_list as [| x l IH]; [reflexivity |]. simpl.
    rewrite IH by (intros fish Hin; apply H; now right).
    f_equal. unfold replicate. do 2 f_equal.
    destruct (H x (or_introl eq_refl)) as [Hp _].
    transitivity (py_int (inject_Z (125 * eighths x))).
    - apply py_int_Qeq. rewrite Hp. unfold Qeq; simpl. lia.
    - unfold py_int; simpl. apply Z.quot_1_r. }
  split; [exact Hw |]. rewrite Hw. clear.
  induction fish_list as [| x l IH]; [reflexivity |]. simpl.
  now rewrite length_app, repeat_length, IH.
Qed.

(** Carp at one half and a species at one eighth: 500 and 125 copies. *)
Lemma selector_exact_on_eighths_witness :
  length (weighted_choices [carp; species "bream" (1 # 8) 1 3 20])
  = list_sum [500; 125]%nat.
Proof.
  refine (proj2 (selector_exact_on_eighths
                   [carp; species "bream" (1 # 8) 1 3 20]
                   (fun fish => if String.eqb (id fish) "carp" then 4 else 1) _)).
  intros fish [<- | [<- | []]]; split; (reflexivity || (vm_compute; discriminate)).
Defined.

(** ** More on the weight sampler *)

Lemma py_round2_near x :
  (x - (1 # 200) <= py_round2 x <= x + (1 # 200))%Q.
Proof.
  pose proof (round_half_even_near (x * 100)%Q) as [Ha Hb].
  assert (He : (py_round2 x == inject_Z (round_half_even (x * 100)%Q) / 100)%Q)
    by (unfold py_round2; apply Qmake_Qdiv).
  rewrite He. set (r := inject_Z (round_half_even (x * 100)%Q)) in *.
  split.
  - apply Qle_shift_div_l; [reflexivity | lra].
  - apply Qle_shift_div_r; [reflexivity | lra].
Qed.



(** X18: whatever the bounds, [min_weight] not above [max_weight], a
    sampled weight leaves the range by at most half a hundredth. *)
Theorem generate_weight_near_range (fish : FishSpecies) (z : Q) :
  (min_weight fish <= max_weight fish)%Q ->
  (min_weight fish - (1 # 200) <= generate_weight fish z
   <= max_weight fish + (1 # 200))%Q.
Proof.
  intros Hle. unfold generate_weight. cbv zeta.
  set (w := gauss _ _ z).
  pose proof (clamp_in_range _ _ w Hle) as [Hc1 Hc2].
  pose proof (py_round2_near
                (py_max (min_weight fish) (py_min (max_weight fish) w)))
    as [Hr1 Hr2].
  split; lra.
Qed.

Lemma generate_weight_near_range_witness :
  (min_weight koi - (1 # 200) <= generate_weight koi 0
   <= max_weight koi + (1 # 200))%Q.
Proof.
  apply (generate_weight_near_range koi 0). discriminate.
Defined.

(** X19: bounds that meet or cross.  When [max_weight] is not above
    [min_weight] the draw plays no part: every sampled weight is
    [min_weight] rounded to two decimals, and no error is raised. *)
Theorem generate_weight_crossed_bounds (fish : FishSpecies) (z : Q) :
  (max_weight fish <= min_weight fish)%Q ->
  generate_weight fish z = py_round2 (min_weight fish).
Proof.
  intros Hle. unfold generate_weight. cbv zeta. f_equal.
  set (w := gauss _ _ z).
  assert (Hx : (py_min (max_weight fish) w <= min_weight fish)%Q).
  { unfold py_min. destruct (Qltb w (max_weight fish)) eqn:E; [| exact Hle].
    apply Qltb_lt in E. lra. }
  unfold py_max. apply Qltb_ge in Hx. now rewrite Hx.
Qed.

Lemma generate_weight_crossed_bounds_witness :
  generate_weight (species "eel" (1 # 2) 3 2 10) (7 # 3) = py_round2 3.
Proof.
  apply (generate_weight_crossed_bounds (species "eel" (1 # 2) 3 2 10) (7 # 3)).
  discriminate.
Defined.

(** ** The personal-best flags *)

Section Flags.

Variables (p f : string).

Lemma NoDup_map_injective {A B} (g : A -> B) (l : list A) a b :
  List.NoDup (map g l) -> In a l -> In b l -> g a = g b -> a = b.
Proof.
  induction l as [| x l IH]; [intros _ [] |]. simpl.
  intros Hnd [-> | Ha] [-> | Hb] Hg; try reflexivity.
  - apply List.NoDup_cons_iff in Hnd as [Hx _]. exfalso. apply Hx.
    rewrite Hg. now apply in_map.
  - apply List.NoDup_cons_iff in Hnd as [Hx _]. exfalso. apply Hx.
    rewrite <- Hg. now apply in_map.
  - apply List.NoDup_cons_iff in Hnd as [_ Hnd]. now apply IH.
Qed.

Lemma filter_matches_unflag rows :
  List.filter (matches p f)
    (map (fun c => if matches p f c then set_flag false c else c) rows)
  = map (set_flag false) (List.filter (matches p f) rows).
Proof.
  induction rows as [| c rows IH]; [reflexivity |]. simpl.
  destruct (matches p f c) eqn:E.
  - change (matches p f (set_flag false c)) with (matches p f c).
    rewrite E. simpl. now rewrite IH.
  - rewrite E. exact IH.
Qed.

(** The table after [update_personal_best_flags] when every call is
    answered: untouched without a matching row; otherwise a heaviest
    matching row [h0] gives its identifier to the last update. *)
Lemma update_personal_best_flags_table self :
  faults (supabase self) = [] ->
  exists self',
    update_personal_best_flags p f self = (Ret tt, self')
    /\ faults (supabase self') = []
    /\ ((prior_catches p f (supabase self) = []
         /\ catches_tbl (supabase self') = catches_tbl (supabase self))
        \/ exists h0,
             In h0 (catches_tbl (supabase self))
             /\ matches p f h0 = true
             /\ (forall c, In c (catches_tbl (supabase self)) ->
                   matches p f c = true -> (weight c <= weight h0)%Q)
             /\ catches_tbl (supabase self')
                = map (fun c =>
                         if Nat.eqb (catch_id c) (catch_id h0) then set_flag true c
                         else if matches p f c then set_flag false c else c)
                    (catches_tbl (supabase self))).
Proof.
  intros Hf. destruct self as [s cache last dur]. simpl in Hf.
  destruct s as [species rows fl n]. simpl in Hf. subst fl.
  unfold update_personal_best_flags, bind, on_store, update_flag,
    select_heaviest_id, execute_write, execute_read, next_fault, heaviest.
  cbn [supabase faults hd tl tick with_catches catches_tbl fish_species_tbl calls
       fish_species_cache last_cache_update cache_duration].
  rewrite filter_matches_unflag.
  pose proof (order_weight_desc_head
                (map (set_flag false) (List.filter (matches p f) rows))) as Hh.
  destruct (order_weight_desc
              (map (set_flag false) (List.filter (matches p f) rows)))
    as [| h1 t1].
  - eexists. split; [reflexivity |]. split; [reflexivity |]. left.
    apply map_eq_nil in Hh. unfold prior_catches; cbn [supabase catches_tbl].
    split; [exact Hh |].
    clear -Hh. induction rows as [| c rows IH]; [reflexivity |].
    simpl in *. destruct (matches p f c); [discriminate |]. now rewrite IH.
  - destruct Hh as [Hin Hmax]. apply in_map_iff in Hin as (h0 & <- & Hin0).
    apply filter_In in Hin0 as [Hin0 Hm0].
    eexists. split; [reflexivity |]. split; [reflexivity |]. right.
    exists h0. split; [exact Hin0 |]. split; [exact Hm0 |]. split.
    + intros c Hc Hm.
      apply (Hmax (set_flag false c)). apply in_map. now apply filter_In.
    + cbn [supabase catches_tbl tick with_catches].
      rewrite map_map. apply map_ext. intros c.
      destruct (matches p f c); cbn [catch_id set_flag];
        destruct (Nat.eqb (catch_id c) (catch_id h0)); reflexivity.
Qed.

End Flags.

(** X20: what [update_personal_best_flags] leaves behind when the store
    answers every call and row identifiers are distinct.  Only flags
    change; rows of other players or species keep theirs; among the
    player's catches of the species a flagged row is a heaviest one; and
    if the player has such catches, exactly one of them is flagged. *)
Theorem update_personal_best_flags_marks_heaviest (p f : string)
    (self : FishingGame) :
  faults (supabase self) = [] ->
  List.NoDup (map catch_id (catches_tbl (supabase self))) ->
  let rows := catches_tbl (supabase self) in
  let rows' := catches_tbl (supabase (snd (update_personal_best_flags p f self))) in
  fst (update_personal_best_flags p f self) = Ret tt
  /\ map (set_flag false) rows' = map (set_flag false) rows
  /\ (forall i c, nth_error rows i = Some c -> matches p f c = false ->
        nth_error rows' i = Some c)
  /\ (forall c, In c rows' -> matches p f c = true -> is_personal_best c = true ->
        forall c', In c' rows' -> matches p f c' = true ->
                   (weight c' <= weight c)%Q)
  /\ ((exists c, In c rows /\ matches p f c = true) ->
      exists c, In c rows' /\ matches p f c = true /\ is_personal_best c = true
                /\ forall c', In c' rows' -> matches p f c' = true ->
                              is_personal_best c' = true -> c' = c).
Proof.
  intros Hf Hnd rows rows'.
  destruct (update_personal_best_flags_table p f self Hf)
    as (self' & Hrun & _ & Hcases).
  subst rows'. rewrite Hrun. cbn [fst snd]. split; [reflexivity |].
  destruct Hcases as [[Hnone ->] | (h0 & Hin0 & Hm0 & Hmax & ->)].
  - fold rows. split; [reflexivity |]. split; [intros; assumption |].
    assert (Hno : forall c, In c rows -> matches p f c = true -> False).
    { intros c Hc Hm.
      assert (Hin : In c (prior_catches p f (supabase self)))
        by (apply filter_In; now split).
      rewrite Hnone in Hin. destruct Hin. }
    split.
    + intros c Hc Hm. destruct (Hno c Hc Hm).
    + intros (c & Hc & Hm). destruct (Hno c Hc Hm).
  - fold rows in Hin0, Hmax |- *.
    set (g := fun c => if Nat.eqb (catch_id c) (catch_id h0) then set_flag true c
                       else if matches p f c then set_flag false c else c).
    assert (Hsame : forall c, In c rows -> catch_id c = catch_id h0 -> c = h0).
    { intros c Hc He. now apply (NoDup_map_injective catch_id rows). }
    assert (Hflag : forall c, In c rows -> matches p f c = true ->
                      is_personal_best (g c) = true -> c = h0).
    { intros c Hc Hm. unfold g. rewrite Hm.
      destruct (Nat.eqb_spec (catch_id c) (catch_id h0)) as [He | _];
        [intros _; now apply Hsame | discriminate]. }
    assert (Hg : forall c, matches p f (g c) = matches p f c
                           /\ weight (g c) = weight c).
    { intros c. unfold g.
      destruct (Nat.eqb (catch_id c) (catch_id h0)); [now split |].
      destruct (matches p f c) eqn:E; [| now split].
      split; [exact E | reflexivity]. }
    split; [| split; [| split]].
    + rewrite map_map. apply map_ext. intros c. unfold g.
      destruct (Nat.eqb (catch_id c) (catch_id h0)); [reflexivity |].
      destruct (matches p f c); reflexivity.
    + intros i c Hi Hm. rewrite nth_error_map, Hi. cbn. f_equal. unfold g.
      rewrite Hm.
      destruct (Nat.eqb_spec (catch_id c) (catch_id h0)) as [He | _];
        [| reflexivity].
      apply nth_error_In in Hi. rewrite (Hsame c Hi He) in Hm. congruence.
    + intros c Hc Hm Hb c' Hc' Hm'.
      apply in_map_iff in Hc as (c0 & <- & Hc0).
      apply in_map_iff in Hc' as (c0' & <- & Hc0').
      destruct (Hg c0) as [Hgm Hgw]. destruct (Hg c0') as [Hgm' Hgw'].
      rewrite Hgm in Hm. rewrite Hgm' in Hm'. rewrite Hgw, Hgw'.
      rewrite (Hflag c0 Hc0 Hm Hb). now apply Hmax.
    + intros _. exists (g h0). split; [now apply in_map |].
      split; [now rewrite (proj1 (Hg h0)) |]. split.
      * unfold g. now rewrite Nat.eqb_refl.
      * intros c' Hc' Hm' Hb'. apply in_map_iff in Hc' as (c0 & <- & Hc0).
        rewrite (proj1 (Hg c0)) in Hm'. now rewrite (Hflag c0 Hc0 Hm' Hb').
Qed.

(** Two carps of player [p1], one of player [p2]. *)
Lemma update_personal_best_flags_marks_heaviest_witness :
  let self :=
    init (store_of [carp]
            [caught 0 "p1" "carp" (3 # 2) true;
             caught 1 "p2" "carp" 9 true;
             caught 2 "p1" "carp" (7 # 4) false]) in
  fst (update_personal_best_flags "p1" "carp" self) = Ret tt
  /\ map (set_flag false)
       (catches_tbl (supabase (snd (update_personal_best_flags "p1" "carp" self))))
     = map (set_flag false) (catches_tbl (supabase self)).
Proof.
  intros self.
  assert (Hnd : List.NoDup (map catch_id (catches_tbl (supabase self))))
    by (repeat constructor; simpl; intuition discriminate).
  destruct (update_personal_best_flags_marks_heaviest "p1" "carp" self
              eq_refl Hnd) as (Hret & Hsame & _).
  split; [exact Hret | exact Hsame].
Defined.

(** X21: the three calls of [update_personal_best_flags] are not one
    transaction.  When the store fails on the second call, or on the third
    while the player has catches of the species, the exception reaches the
    caller after the first update has been applied: none of the player's
    catches of the species is flagged any more. *)
Theorem update_personal_best_flags_interrupted (p f : string)
    (self : FishingGame) (rest : list Fault) :
  faults (supabase self) = NoFault :: FaultRaise :: rest
  \/ (faults (supabase self) = NoFault :: NoFault :: FaultRaise :: rest
      /\ prior_catches p f (supabase self) <> []) ->
  let self' := snd (update_personal_best_flags p f self) in
  fst (update_personal_best_flags p f self) = Raise StoreError
  /\ catches_tbl (supabase self')
     = map (fun c => if matches p f c then set_flag false c else c)
         (catches_tbl (supabase self))
  /\ forall c, In c (catches_tbl (supabase self')) -> matches p f c = true ->
               is_personal_best c = false.
Proof.
  intros Hf self'.
  assert (Hrun : fst (update_personal_best_flags p f self) = Raise StoreError
                 /\ catches_tbl (supabase self')
                    = map (fun c => if matches p f c then set_flag false c else c)
                        (catches_tbl (supabase self))).
  { subst self'. destruct self as [s cache last dur].
    destruct s as [species rows fl n]. simpl in Hf.
    unfold update_personal_best_flags, bind, on_store, update_flag,
      select_heaviest_id, execute_write, execute_read, next_fault, heaviest.
    destruct Hf as [-> | [-> Hsome]];
      cbn [supabase faults hd tl tick with_catches catches_tbl fish_species_tbl
           calls fish_species_cache last_cache_update cache_duration fst snd].
    - split; reflexivity.
    - rewrite filter_matches_unflag.
      pose proof (order_weight_desc_head
                    (map (set_flag false) (List.filter (matches p f) rows))) as Hh.
      destruct (order_weight_desc
                  (map (set_flag false) (List.filter (matches p f) rows)))
        as [| h1 t1].
      + apply map_eq_nil in Hh. contradiction.
      + cbn [map firstn fst snd supabase faults hd tl tick with_catches
             catches_tbl]. split; reflexivity. }
  destruct Hrun as [Hraise Hrows]. split; [exact Hraise |].
  split; [exact Hrows |].
  intros c Hc Hm. rewrite Hrows in Hc. apply in_map_iff in Hc as (c0 & <- & _).
  destruct (matches p f c0) eqn:E; [reflexivity |].
  rewrite E in Hm. discriminate.
Qed.

Lemma update_personal_best_flags_interrupted_witness :
  let self :=
    init {| fish_species_tbl := [carp];
            catches_tbl := [caught 0 "p1" "carp" (3 # 2) true];
            faults := [NoFault; FaultRaise];
            calls := 0 |} in
  fst (update_personal_best_flags "p1" "carp" self) = Raise StoreError
  /\ catches_tbl (supabase (snd (update_personal_best_flags "p1" "carp" self)))
     = [caught 0 "p1" "carp" (3 # 2) false].
Proof.
  intros self.
  destruct (update_personal_best_flags_interrupted "p1" "carp" self []
              (or_introl eq_refl)) as (Hraise & Hrows & _).
  split; [exact Hraise | exact Hrows].
Defined.

(** ** Casts and the personal-best flags *)

Section CastFlags.

Lemma generate_random_fish_state current_time k self :
  snd (generate_random_fish current_time k self)
  = snd (get_all_fish_species current_time self).
Proof.
  unfold generate_random_fish, bind.
  destruct (get_all_fish_species current_time self) as [[[| x l] | e] s'];
    try reflexivity.
  destruct (weighted_choices (x :: l)); reflexivity.
Qed.

Lemma get_all_fish_species_faults current_time self :
  faults (supabase self) = [] ->
  faults (supabase (snd (get_all_fish_species current_time self))) = [].
Proof.
  intros Hf. destruct (cache_fresh current_time self) eqn:E.
  - now rewrite get_all_fish_species_hit.
  - rewrite (get_all_fish_species_miss _ _ E).
    unfold select_fish_species, execute_read, next_fault. rewrite Hf.
    cbn [hd].
    destruct (fish_species_tbl (supabase self));
      cbn [snd supabase with_store set_cache tick faults]; now rewrite Hf.
Qed.

(** [save_catch] when the store answers every call. *)
Lemma save_catch_answered player_id fish weight b now self :
  faults (supabase self) = [] ->
  let row := {| catch_id := length (catches_tbl (supabase self));
                player_id := player_id;
                fish_species_id := id fish;
                weight := weight;
                caught_at := now;
                is_personal_best := b;
                points_earned := points fish |} in
  let self3 :=
    with_store (tick (with_catches (catches_tbl (supabase self) ++ [row])
                        (supabase self))) self in
  save_catch player_id fish weight b now self
  = if b
    then match update_personal_best_flags player_id (id fish) self3 with
         | (Ret _, self') => (Ret (Some row), self')
         | (Raise e, self') => (Raise e, self')
         end
    else (Ret (Some row), self3).
Proof.
  intros Hf row self3.
  unfold save_catch. unfold bind at 1.
  unfold on_store, rpc_insert_catch, execute_write, next_fault.
  rewrite Hf. cbn [hd]. subst self3. unfold with_store.
  destruct b.
  - unfold bind.
    destruct (update_personal_best_flags player_id (id fish) _)
      as [[[] | e] self']; reflexivity.
  - reflexivity.
Qed.

Lemma matches_iff p f c :
  matches p f c = true <-> player_id c = p /\ fish_species_id c = f.
Proof.
  unfold matches. rewrite andb_true_iff, !String.eqb_eq. reflexivity.
Qed.

Lemma ids_below_length rows c :
  ids_are_positions rows -> In c rows -> (catch_id c < length rows)%nat.
Proof.
  unfold ids_are_positions. intros Hids Hc.
  apply (in_map catch_id) in Hc. rewrite Hids in Hc.
  apply in_seq in Hc. lia.
Qed.

End CastFlags.

Section SaveCatchFlags.

Variables (p : string) (fish : FishSpecies) (w now : Q).

Abbreviation unflag := (unflag p (id fish)).

Lemma unflag_keeps c :
  catch_id (unflag c) = catch_id c
  /\ weight (unflag c) = weight c
  /\ player_id (unflag c) = player_id c
  /\ fish_species_id (unflag c) = fish_species_id c.
Proof.
  unfold unflag. destruct (matches p (id fish) c); repeat split.
Qed.

Lemma unflag_flagged c :
  is_personal_best (unflag c) = true ->
  matches p (id fish) c = false /\ unflag c = c.
Proof.
  unfold unflag. destruct (matches p (id fish) c); [discriminate | now split].
Qed.

(** The table after a saved catch, when the store answers every call. *)
Lemma save_catch_table b self r self' :
  faults (supabase self) = [] ->
  ids_are_positions (catches_tbl (supabase self)) ->
  (b = true -> forall c, In c (catches_tbl (supabase self)) ->
                         matches p (id fish) c = true -> (weight c < w)%Q) ->
  save_catch p fish w b now self = (Ret (Some r), self') ->
  let row := {| catch_id := length (catches_tbl (supabase self));
                player_id := p; fish_species_id := id fish; weight := w;
                caught_at := now; is_personal_best := b;
                points_earned := points fish |} in
  faults (supabase self') = []
  /\ catches_tbl (supabase self')
     = (if b then map unflag (catches_tbl (supabase self))
        else catches_tbl (supabase self)) ++ [row].
Proof.
  intros Hf Hids Hlt Hsave row.
  rewrite (save_catch_answered p fish w b now self Hf) in Hsave.
  fold row in Hsave. destruct b.
  - set (self3 := with_store _ self) in Hsave.
    destruct (update_personal_best_flags_table p (id fish) self3)
      as (self'' & Hrun & Hf'' & Hcases).
    { subst self3. cbn. now rewrite Hf. }
    rewrite Hrun in Hsave. injection Hsave as _ <-.
    split; [exact Hf'' |].
    assert (Hrow : matches p (id fish) row = true)
      by (apply matches_iff; now split).
    assert (Hrows3 : catches_tbl (supabase self3)
                     = catches_tbl (supabase self) ++ [row]) by reflexivity.
    destruct Hcases as [[Hnone _] | (h0 & Hin0 & Hm0 & Hmax & ->)].
    + exfalso.
      assert (Hin : In row (prior_catches p (id fish) (supabase self3))).
      { apply filter_In. split; [| exact Hrow].
        rewrite Hrows3. apply in_or_app. right. now left. }
      rewrite Hnone in Hin. destruct Hin.
    + rewrite Hrows3 in *.
      assert (Hh0 : h0 = row).
      { apply in_app_or in Hin0 as [Hold | [<- | []]]; [| reflexivity].
        exfalso. specialize (Hlt eq_refl h0 Hold Hm0).
        assert (Hle : (weight row <= weight h0)%Q).
        { apply Hmax; [apply in_or_app; right; now left | exact Hrow]. }
        cbn in Hle. lra. }
      subst h0. rewrite map_app. cbn [map catch_id row].
      rewrite Nat.eqb_refl. f_equal.
      apply map_ext_in. intros c Hc.
      pose proof (ids_below_length _ c Hids Hc) as Hlt'.
      destruct (Nat.eqb_spec (catch_id c) (length (catches_tbl (supabase self))))
        as [He | _]; [lia | reflexivity].
  - injection Hsave as _ <-. split; [| reflexivity]. cbn. now rewrite Hf.
Qed.

(** A saved catch keeps the flags on heaviest catches, provided the flag
    it was saved with tells whether it beats the earlier catches. *)
Lemma save_catch_keeps_flags b self r self' :
  faults (supabase self) = [] ->
  ids_are_positions (catches_tbl (supabase self)) ->
  flagged_are_heaviest (catches_tbl (supabase self)) ->
  (b = true -> forall c, In c (catches_tbl (supabase self)) ->
                         matches p (id fish) c = true -> (weight c < w)%Q) ->
  (b = false -> exists h, In h (catches_tbl (supabase self))
                          /\ matches p (id fish) h = true
                          /\ (w <= weight h)%Q) ->
  save_catch p fish w b now self = (Ret (Some r), self') ->
  ids_are_positions (catches_tbl (supabase self'))
  /\ flagged_are_heaviest (catches_tbl (supabase self'))
  /\ exists row,
       nth_error (catches_tbl (supabase self'))
         (length (catches_tbl (supabase self))) = Some row
       /\ length (catches_tbl (supabase self'))
          = S (length (catches_tbl (supabase self)))
       /\ player_id row = p /\ fish_species_id row = id fish
       /\ weight row = w /\ is_personal_best row = b
       /\ points_earned row = points fish.
Proof.
  intros Hf Hids Hinv Hlt Hge Hsave.
  destruct (save_catch_table b self r self' Hf Hids Hlt Hsave) as [_ Hrows].
  set (rows := catches_tbl (supabase self)) in *.
  set (row := {| catch_id := length rows; player_id := p;
                 fish_species_id := id fish; weight := w; caught_at := now;
                 is_personal_best := b; points_earned := points fish |}) in *.
  set (old := if b then map unflag rows else rows) in *.
  assert (Hlen : length old = length rows)
    by (subst old; destruct b; [apply length_map | reflexivity]).
  assert (Hold : forall c, In c old ->
            exists c0, In c0 rows /\ catch_id c = catch_id c0
                       /\ weight c = weight c0 /\ player_id c = player_id c0
                       /\ fish_species_id c = fish_species_id c0
                       /\ (is_personal_best c = true ->
                           c = c0 /\ (b = true -> matches p (id fish) c0 = false))).
  { subst old. destruct b.
    - intros c Hc. apply in_map_iff in Hc as (c0 & <- & Hc0). exists c0.
      destruct (unflag_keeps c0) as (H1 & H2 & H3 & H4).
      repeat split; try assumption.
      + now apply unflag_flagged.
      + intros _. now apply unflag_flagged.
    - intros c Hc. exists c. repeat split; try assumption. discriminate. }
  rewrite Hrows. split; [| split].
  - unfold ids_are_positions. rewrite map_app, length_app, Hlen. cbn [map length].
    rewrite Nat.add_1_r, seq_S. f_equal. cbn [catch_id row Nat.add].
    subst old. destruct b; [| exact Hids].
    rewrite map_map. unfold ids_are_positions in Hids. rewrite <- Hids.
    apply map_ext. intros c. apply unflag_keeps.
  - intros c c' Hc Hc' Hb Hm.
    apply matches_iff in Hm as [Hp Hs].
    apply in_app_or in Hc as [Hc | [<- | []]];
      apply in_app_or in Hc' as [Hc' | [<- | []]].
    + destruct (Hold c Hc) as (c0 & Hc0 & _ & Hw & Hp0 & Hs0 & Hfl).
      destruct (Hold c' Hc') as (c0' & Hc0' & _ & Hw' & Hp0' & Hs0' & _).
      destruct (Hfl Hb) as [-> _]. rewrite Hw'.
      apply (Hinv c0 c0' Hc0 Hc0' Hb).
      apply matches_iff. split; congruence.
    + destruct (Hold c Hc) as (c0 & Hc0 & _ & Hw & Hp0 & Hs0 & Hfl).
      destruct (Hfl Hb) as [-> Hnot]. cbn in Hp, Hs. cbn [weight row].
      assert (Hm0 : matches p (id fish) c0 = true)
        by (apply matches_iff; split; congruence).
      destruct b.
      * rewrite (Hnot eq_refl) in Hm0. discriminate.
      * destruct (Hge eq_refl) as (h & Hh & Hmh & Hwh).
        apply Qle_trans with (y := weight h); [exact Hwh |].
        apply (Hinv c0 h Hc0 Hh Hb).
        apply matches_iff in Hm0 as [Hp1 Hs1]. rewrite Hp1, Hs1. exact Hmh.
    + cbn in Hb, Hp, Hs. subst b. cbn [weight row].
      destruct (Hold c' Hc') as (c0' & Hc0' & _ & Hw' & Hp0' & Hs0' & _).
      rewrite Hw'. apply Qlt_le_weak. apply (Hlt eq_refl c0' Hc0').
      apply matches_iff. split; congruence.
    + apply Qle_refl.
  - exists row. split.
    + rewrite nth_error_app2 by lia. now rewrite Hlen, Nat.sub_diag.
    + split; [rewrite length_app, Hlen; cbn; lia |]. now repeat split.
Qed.

End SaveCatchFlags.

(** X22: a successful cast keeps the flags on heaviest catches.  With the
    stored procedure modelled as inserting one row whose identifier is its
    position, a store that answers every call, and a table whose row
    identifiers are the row positions and whose flagged catches are
    heaviest ones for their player and species: after a cast that reports
    success the identifiers are again the positions, the table has one
    more row, the catch of the result with the flag of the result, and
    its flagged catches are again heaviest ones. *)
Theorem cast_line_keeps_flags_on_heaviest (player_id : string) (now : Q)
    (k : nat) (z : Q) (self self' : FishingGame) (r : CastResult) :
  faults (supabase self) = [] ->
  ids_are_positions (catches_tbl (supabase self)) ->
  flagged_are_heaviest (catches_tbl (supabase self)) ->
  cast_line player_id now k z self = (Ret r, self') ->
  success r = true ->
  ids_are_positions (catches_tbl (supabase self'))
  /\ flagged_are_heaviest (catches_tbl (supabase self'))
  /\ length (catches_tbl (supabase self'))
     = S (length (catches_tbl (supabase self)))
  /\ exists row species,
       nth_error (catches_tbl (supabase self'))
         (length (catches_tbl (supabase self))) = Some row
       /\ fish r = Some species
       /\ Game.player_id row = player_id
       /\ fish_species_id row = id species
       /\ Some (weight row) = cast_weight r
       /\ is_personal_best row = cast_is_personal_best r
       /\ Some (points_earned row) = cast_points r.
Proof.
  intros Hf Hids Hinv Hcast Hok.
  apply cast_line_returns in Hcast.
  destruct Hcast as [[_ ->] | (species & self1 & b & self2 & Hsel & Hbest & Hsave)];
    [discriminate |].
  destruct Hsave as [[_ ->] | (row0 & Hsave & ->)]; [discriminate |].
  (* the store after the selector *)
  assert (Hs1 : catches_tbl (supabase self1) = catches_tbl (supabase self)
                /\ faults (supabase self1) = []).
  { pose proof (generate_random_fish_state now k self) as Hst.
    rewrite Hsel in Hst. cbn [snd] in Hst. subst self1. split.
    - apply get_all_fish_species_catches.
    - now apply get_all_fish_species_faults. }
  destruct Hs1 as [Hrows1 Hf1].
  (* the store after the personal-best check, and its answer *)
  rewrite (check_personal_best_answer player_id (id species) _ self1) in Hbest
    by (unfold next_fault; now rewrite Hf1).
  injection Hbest as Hb <-.
  pose proof (heaviest_spec player_id (id species) (supabase self1)) as Hh.
  unfold prior_catches in Hh. rewrite Hrows1 in Hh.
  set (w := generate_weight species z) in *.
  set (rows := catches_tbl (supabase self)) in *.
  destruct (save_catch_keeps_flags player_id species w now b
              (with_store (tick (supabase self1)) self1) row0 self')
    as (Hids' & Hinv' & row & Hnth & Hlen & Hp & Hs & Hw & Hfl & Hpts).
  - cbn. now rewrite Hf1.
  - cbn [with_store supabase tick catches_tbl]. now rewrite Hrows1.
  - cbn [with_store supabase tick catches_tbl]. now rewrite Hrows1.
  - cbn [with_store supabase tick catches_tbl]. rewrite Hrows1. fold rows.
    intros Htrue c Hc Hm. subst b.
    destruct (heaviest player_id (id species) (supabase self1)) as [| h t].
    + assert (Hin : In c (List.filter (matches player_id (id species)) rows))
        by (apply filter_In; now split).
      rewrite Hh in Hin. destruct Hin.
    + destruct Hh as [_ Hmax]. apply Qltb_lt in Htrue.
      apply Qle_lt_trans with (y := weight h); [| exact Htrue].
      apply Hmax. apply filter_In. now split.
  - cbn [with_store supabase tick catches_tbl]. rewrite Hrows1. fold rows.
    intros Hfalse. subst b.
    destruct (heaviest player_id (id species) (supabase self1)) as [| h t];
      [discriminate |].
    destruct Hh as [Hin _]. apply filter_In in Hin as [Hin Hm].
    exists h. split; [exact Hin |]. split; [exact Hm |]. now apply Qltb_ge.
  - exact Hsave.
  - cbn [with_store supabase tick catches_tbl] in *. rewrite Hrows1 in *.
    fold rows in Hnth, Hlen.
    split; [exact Hids' |]. split; [exact Hinv' |]. split; [exact Hlen |].
    exists row, species. cbn [fish cast_weight cast_is_personal_best cast_points].
    rewrite Hw, Hfl, Hpts. now repeat split.
Qed.

(** Player [p1], who holds carps of 1.25 and of 1.5, the second one
    flagged, casts and draws far above the mean: a carp of 2, heavier than
    both.  The table has a third row, and its flagged catches are heaviest
    ones: the flag has moved from the carp of 1.5 to the new one. *)
Lemma cast_line_keeps_flags_on_heaviest_witness :
  exists r self',
    cast_line "p1" 10 3 5 (init pond_with_history) = (Ret r, self')
    /\ cast_weight r = Some (200 # 100)%Q
    /\ length (catches_tbl (supabase self')) = 3%nat
    /\ flagged_are_heaviest (catches_tbl (supabase self'))
    /\ exists row,
         nth_error (catches_tbl (supabase self')) 2 = Some row
         /\ is_personal_best row = cast_is_personal_best r.
Proof.
  destruct (cast_line "p1" 10 3 5 (init pond_with_history))
    as [[r | e] self'] eqn:E; [| vm_compute in E; discriminate].
  exists r, self'. split; [reflexivity |].
  assert (Hs : success r = true) by (vm_compute in E; now inversion E).
  assert (Hw : cast_weight r = Some (200 # 100)%Q) by (vm_compute in E; now inversion E).
  assert (Hinv0 : flagged_are_heaviest (catches_tbl (supabase (init pond_with_history)))).
  { intros c c' [<- | [<- | []]] [<- | [<- | []]] Hb Hm;
      try discriminate Hb; unfold Qle; simpl; lia. }
  destruct (cast_line_keeps_flags_on_heaviest "p1" 10 3 5 (init pond_with_history)
              self' r eq_refl eq_refl Hinv0 E Hs)
    as (_ & Hinv & Hlen & row & species & Hnth & _ & _ & _ & _ & Hflag & _).
  split; [exact Hw |]. split; [exact Hlen |]. split; [exact Hinv |].
  exists row. split; [exact Hnth | exact Hflag].
Defined.
